(** * Lenstra elliptic-curve factorisation: a shallow embedding of the
      Python sources (Point.py, helperFuncs.py, EllipticCurve.py, lenstra.py)
      and the properties of its arithmetic and search layers. *)

From Equations Require Import Equations.
From Stdlib Require Import ZArith Znumtheory List Bool Lia.
Import ListNotations.

Local Open Scope Z_scope.

(* ===================================================================== *)
(** ** Python run-time model *)
(* ===================================================================== *)

(** The exceptions the modelled code can raise. [CurveNotFound] is the
    [Exception('No EC found, ...')] of [generateCurvePoint]. *)
Inductive exn : Type :=
| ZeroDivisionError
| OverflowError
| ValueError
| UnboundLocalError
| AttributeError
| RecursionError
| CurveNotFound.

(** What a call does: it returns a value, raises, or never returns. *)
Inductive outcome (A : Type) : Type :=
| Returns (a : A)
| Raises (e : exn)
| Diverges.
Arguments Returns {A} a.
Arguments Raises {A} e.
Arguments Diverges {A}.

(** The part of the interpreter state the program depends on: the
    allocator (every object gets a fresh identity, which is what the default
    [==] of a class without [__eq__] compares) and the random source
    ([rng i] is what the [i]-th call of [randint] draws; [drawn] counts the
    calls made so far). *)
Record world : Type := mkWorld {
  next_oid : nat;
  rng : nat -> Z;
  drawn : nat
}.

(** The state after one more object was allocated. *)
Definition bump (w : world) : world :=
  mkWorld (S (next_oid w)) (rng w) (drawn w).

(** The state after one more call of [randint]. *)
Definition tick (w : world) : world :=
  mkWorld (next_oid w) (rng w) (S (drawn w)).

Definition M (A : Type) : Type := world -> outcome (A * world).

Definition ret {A} (a : A) : M A := fun w => Returns (a, w).

Definition bind {A B} (c : M A) (k : A -> M B) : M B :=
  fun w => match c w with
           | Returns (a, w') => k a w'
           | Raises e => Raises e
           | Diverges => Diverges
           end.

Definition raise {A} (e : exn) : M A := fun _ => Raises e.

Definition loop_forever {A} : M A := fun _ => Diverges.

Declare Scope py_scope.
Delimit Scope py_scope with py.
Notation "x <- c ;; k" := (bind c (fun x => k))
  (at level 61, c at next level, right associativity) : py_scope.
Notation "' pat <- c ;; k" := (bind c (fun x => match x with pat => k end))
  (at level 61, pat pattern, c at next level, right associativity) : py_scope.
Notation "c ;;; k" := (bind c (fun _ => k))
  (at level 61, right associativity) : py_scope.
Local Open Scope py_scope.

(** The value a call returns, without the state it leaves behind. *)
Definition observe {A} (o : outcome (A * world)) : outcome A :=
  match o with
  | Returns (a, _) => Returns a
  | Raises e => Raises e
  | Diverges => Diverges
  end.

(** [a % m] on ints: floor modulus, [ZeroDivisionError] for [m = 0]. *)
Definition pymod (a m : Z) : M Z :=
  if m =? 0 then raise ZeroDivisionError else ret (a mod m).

(** Converting an int to a float (which Python does when an int meets a
    float in [+], [-], [*] or [%]) raises [OverflowError] from
    [2^1024 - 2^970] on, the first int that rounds to [2^1024]. *)
Definition float_limit : Z := 2 ^ 1024 - 2 ^ 970.

Definition to_float (z : Z) : M unit :=
  if Z.abs z <? float_limit then ret tt else raise OverflowError.

(** [f % m] for a non-finite float [f] and an int [m]: the result, when
    there is one, is [nan]. *)
Definition nonfinite_mod (m : Z) : M unit :=
  to_float m ;;;
  if m =? 0 then raise ZeroDivisionError else ret tt.

(* ===================================================================== *)
(** ** helperFuncs.py: extGCD and modInv *)
(* ===================================================================== *)

(** The [while n != 0] loop of [extGCD], with the six loop variables.
    [divmod(m, n)] is floor division, so [|n|] decreases. *)
Equations? extGCD_loop (n m prevX x prevY y : Z) : Z * Z * Z
  by wf (Z.abs_nat n) lt :=
  extGCD_loop n m prevX x prevY y with Z.eq_dec n 0 => {
    | left _ => (prevX, prevY, m)
    | right _ =>
        extGCD_loop (m mod n) n x (prevX - (m / n) * x) y (prevY - (m / n) * y)
  }.
Proof.
  pose proof (Z.mod_bound_or m n ltac:(assumption)). lia.
Qed.

Definition extGCD (n m : Z) : Z * Z * Z := extGCD_loop n m 0 1 1 0.

(** [modInv(n, m)]: the pair [(exists, res)]. *)
Definition modInv (n m : Z) : M (bool * Z) :=
  n <- pymod n m ;;
  let '(n, _, gcf) := extGCD n m in
  if negb (gcf =? 1) then ret (false, gcf)
  else ret (true, n mod m).

(** [factorial(n)]: [1] for [n in {0, 1}], else [n * factorial(n - 1)]; a
    negative [n] never reaches the base case and exhausts the recursion
    limit. *)
Fixpoint factorial_rec (k : nat) : Z :=
  match k with
  | O => 1
  | S O => 1
  | S k' => Z.of_nat k * factorial_rec k'
  end.

Definition factorial (n : Z) : M Z :=
  if n <? 0 then raise RecursionError else ret (factorial_rec (Z.to_nat n)).

(** [isSmooth(a, b, m)]. *)
Definition isSmooth (a b m : Z) : M bool :=
  let negDisc := 64 * a ^ 3 + 432 * b ^ 2 in
  r <- pymod negDisc m ;;
  ret (negb (r =? 0)).

(* ===================================================================== *)
(** ** Point.py *)
(* ===================================================================== *)

(** The coordinates a [Point] object can hold. [__init__] stores
    [x % modulus, y % modulus] (ints), or [float('inf')] twice when
    [ID] is set; [NaNs] is the pair of [nan] that the same reduction leaves
    when it is handed non-finite floats. *)
Inductive coords : Type :=
| Affine (x y : Z)
| Infinite
| NaNs.

Module Point.

Record t : Type := mk {
  oid : nat;          (* the object's identity *)
  xy : coords;
  modulus : Z
}.

Definition ID (P : t) : bool :=
  match xy P with Infinite => true | _ => false end.

Definition alloc (c : coords) (m : Z) : M t :=
  fun w => Returns (mk (next_oid w) c m, bump w).

(** [Point(x, y, modulus)] on ints. *)
Definition new (x y modulus : Z) : M t :=
  x' <- pymod x modulus ;;
  y' <- pymod y modulus ;;
  alloc (Affine x' y') modulus.

(** [Point(ID=True)]: the modulus keeps its default, 1. *)
Definition new_ID : M t := alloc Infinite 1.

(** [Point(x, y, modulus)] on non-finite floats. *)
Definition new_nan (modulus : Z) : M t :=
  nonfinite_mod modulus ;;; alloc NaNs modulus.

(** The module-level [identity = Point(ID=True)], the first object made. *)
Definition identity : t := mk 0 Infinite 1.

(** [P == Q]. The class defines no [__eq__], so this is the default
    comparison of [object]: the two operands are the same object. *)
Definition eqb (P Q : t) : bool := Nat.eqb (oid P) (oid Q).

(** The [inverse] property. *)
Definition inverse (P : t) : M t :=
  match xy P with
  | Infinite => new_ID
  | Affine x y =>
      let newY := if negb (y =? 0) then modulus P - y else 0 in
      new x newY (modulus P)
  | NaNs =>
      (* nan != 0, and modulus - nan is nan *)
      to_float (modulus P) ;;; new_nan (modulus P)
  end.

(** [P] is an object that exists in state [w]. *)
Definition allocated (w : world) (P : t) : Prop :=
  (oid P < next_oid w)%nat.

(** The fields of [P] are ones [__init__] can have stored: it went
    through the reductions by [modulus] of its branch. *)
Definition constructible (P : t) : Prop :=
  match xy P with
  | Affine _ _ => modulus P <> 0
  | Infinite => True
  | NaNs => modulus P <> 0 /\ Z.abs (modulus P) < float_limit
  end.

End Point.

(** What [double], [add] and [mult] put in the second component of their
    result: a point, or the int obstruction. *)
Inductive value : Type :=
| VPoint (p : Point.t)
| VInt (z : Z).

(* ===================================================================== *)
(** ** helperFuncs.py: slopes and the curve-independent cases *)
(* ===================================================================== *)

(** The ints among the coordinates that meet a float in [Q.c - P.c]. *)
Definition float_operands (cp cq : coords) : M unit :=
  match cp, cq with
  | Affine px py, Affine _ _ => ret tt
  | Affine px py, _ => to_float py ;;; to_float px
  | _, Affine qx qy => to_float qy ;;; to_float qx
  | _, _ => ret tt
  end.

(** [modularSlope(P, Q)]. With a non-finite coordinate, [dx] is a
    non-finite float, [n %= m] in [modInv] leaves [nan], and [extGCD]'s
    [while n != 0] never ends, [nan != 0] being true. *)
Definition modularSlope (P Q : Point.t) : M (bool * Z) :=
  match Point.xy P, Point.xy Q with
  | Affine px py, Affine qx qy =>
      let dy := qy - py in
      let dx := qx - px in
      let modulus := Point.modulus P in
      '(exists_, dxInv) <- modInv dx modulus ;;
      if exists_ then res <- pymod (dy * dxInv) modulus ;; ret (true, res)
      else ret (false, dxInv)
  | cp, cq =>
      float_operands cp cq ;;;
      nonfinite_mod (Point.modulus P) ;;;
      loop_forever
  end.

Definition k_in_range (k : Z) : bool :=
  (k =? -1) || (k =? 0) || (k =? 1).

(** [isCurveInd(P, Q, k)]; [or] and [and] evaluate left to right and stop
    early, so [Q.inverse] is built only when neither point is the identity. *)
Definition isCurveInd (P Q : Point.t) (k : Z) : M bool :=
  c <- (if Point.ID P then ret true
        else if Point.ID Q then ret true
        else Qi <- Point.inverse Q ;; ret (Point.eqb P Qi)) ;;
  ret (c && k_in_range k).

(** [resCurveInd(P, Q, k)]; [res] is unbound until a branch assigns it. *)
Definition resCurveInd (P Q : Point.t) (k : Z) : M Point.t :=
  res <- (if Point.ID Q && (k =? 1) then ret (Some P)
          else Qi <- Point.inverse Q ;;
               if Point.eqb P Qi || (k =? 0) then ret (Some Point.identity)
               else if k =? -1 then Pi <- Point.inverse P ;; ret (Some Pi)
               else ret None) ;;
  let res := if Point.ID P then Some Q else res in
  match res with
  | Some r => ret r
  | None => raise UnboundLocalError
  end.

(** How a call of [resCurveInd] can end when its result gets bound: with
    a point, or with an error of the reduction by a zero or oversized
    modulus inside [inverse]. *)
Definition bound_result (P Q : Point.t) (o : outcome (Point.t * world)) : Prop :=
  (exists r w', o = Returns (r, w')) \/
  (exists e, o = Raises e /\ e <> UnboundLocalError /\
             (~ Point.constructible P \/ ~ Point.constructible Q)).

(* ===================================================================== *)
(** ** EllipticCurve.py *)
(* ===================================================================== *)

(** [bin(k)[:1:-1]]: the binary digits of [k], least significant first,
    as the truth of [bit == '1']. For a negative [k] the slice also takes
    the ['b'] of the ['-0b'] prefix, which is not ['1']. *)
Fixpoint pos_bits (p : positive) : list bool :=
  match p with
  | xH => [true]
  | xO p' => false :: pos_bits p'
  | xI p' => true :: pos_bits p'
  end.

Definition bin_rev (k : Z) : list bool :=
  match k with
  | Z0 => [false]
  | Zpos p => pos_bits p
  | Zneg p => pos_bits p ++ [false]
  end.

Module EC.

Record t : Type := mk {
  a : Z;
  b : Z;
  modulus : Z
}.

(** [EC(a, b, modulus)]. *)
Definition new (a b modulus : Z) : M t :=
  a' <- pymod a modulus ;;
  b' <- pymod b modulus ;;
  ret (mk a' b' modulus).

(** [tangent(P)]. At a non-finite coordinate [dy] is a non-finite float
    and [modInv] never returns, as in [modularSlope]. *)
Definition tangent (E : t) (P : Point.t) : M (bool * Z) :=
  match Point.xy P with
  | Affine x y =>
      dx <- pymod (3 * x ^ 2 + a E) (modulus E) ;;
      let dy := 2 * y in
      '(exists_, dyInv) <- modInv dy (modulus E) ;;
      if exists_ then res <- pymod (dx * dyInv) (modulus E) ;; ret (true, res)
      else ret (false, dyInv)
  | _ =>
      to_float (a E) ;;;
      nonfinite_mod (modulus E) ;;;
      loop_forever
  end.

(** [__add_sumExists(P, Q, slope)]. *)
Definition add_sumExists (E : t) (P Q : Point.t) (slope : Z) : M Point.t :=
  match Point.xy P, Point.xy Q with
  | Affine px py, Affine qx qy =>
      let resX := slope ^ 2 - px - qx in
      let resY := slope * (px - resX) - py in
      Point.new resX resY (modulus E)
  | Affine px py, _ =>
      to_float (slope ^ 2 - px) ;;; to_float px ;;;
      to_float slope ;;; to_float py ;;;
      Point.new_nan (modulus E)
  | _, Affine qx qy =>
      to_float (slope ^ 2) ;;; to_float qx ;;; to_float slope ;;;
      Point.new_nan (modulus E)
  | _, _ =>
      to_float (slope ^ 2) ;;; to_float slope ;;;
      Point.new_nan (modulus E)
  end.

(** [double(P)]. *)
Definition double (E : t) (P : Point.t) : M (bool * value) :=
  Pi <- Point.inverse P ;;
  if Point.eqb P Pi then ret (true, VPoint Point.identity)
  else
    '(exists_, tangentAttempt) <- tangent E P ;;
    if exists_ then
      res <- add_sumExists E P P tangentAttempt ;; ret (true, VPoint res)
    else ret (false, VInt tangentAttempt).

(** [add(P, Q)]. *)
Definition add (E : t) (P Q : Point.t) : M (bool * value) :=
  if Point.eqb P Q then double E P
  else
    ind <- isCurveInd P Q 1 ;;
    if ind then res <- resCurveInd P Q 1 ;; ret (true, VPoint res)
    else
      '(exists_, slopeAttempt) <- modularSlope P Q ;;
      if exists_ then
        res <- add_sumExists E P Q slopeAttempt ;; ret (true, VPoint res)
      else ret (false, VInt slopeAttempt).

(** A name bound to an int where a point is used ([P.ID], [P.x]). *)
Definition as_point (v : value) : M Point.t :=
  match v with
  | VPoint p => ret p
  | VInt _ => raise AttributeError
  end.

(** The [for bit in bin(k)[:1:-1]] loop of [mult], on the variables
    [exists], [res] and [P]. *)
Fixpoint mult_loop (E : t) (bits : list bool)
         (exists_ : bool) (res P : value) : M (bool * value) :=
  match bits with
  | [] => ret (exists_, res)
  | bit :: rest =>
      if negb exists_ then ret (exists_, res)
      else if bit then
        p <- as_point P ;;
        q <- as_point res ;;
        '(exists_, res) <- add E p q ;;
        if negb exists_ then ret (exists_, res)
        else
          '(exists_, P) <- double E p ;;
          mult_loop E rest exists_ res P
      else
        p <- as_point P ;;
        '(exists_, P) <- double E p ;;
        mult_loop E rest exists_ res P
  end.

(** [mult(P, k)]. *)
Definition mult (E : t) (P : Point.t) (k : Z) : M (bool * value) :=
  '(P, k) <- (if k <? 0 then Pi <- Point.inverse P ;; ret (Pi, - k)
              else ret (P, k)) ;;
  ind <- isCurveInd P Point.identity k ;;
  if ind then res <- resCurveInd P Point.identity k ;; ret (true, VPoint res)
  else mult_loop E (bin_rev k) true (VPoint Point.identity) (VPoint P).

End EC.

(* ===================================================================== *)
(** ** lenstra.py *)
(* ===================================================================== *)

(** [randint(lo, hi)]: [ValueError] on an empty range, else some value of
    [lo..hi]; which one is read off the random source. *)
Definition randint (lo hi : Z) : M Z :=
  fun w =>
    if hi <? lo then Raises ValueError
    else Returns (lo + rng w (drawn w) mod (hi - lo + 1), tick w).

(** The [for _ in range(effort)] loop of [generateCurvePoint]: [None] when
    it ends with [haveCurve] still false. *)
Fixpoint generate_loop (n : nat) (m : Z) : M (option (Point.t * EC.t)) :=
  match n with
  | O => ret None
  | S n' =>
      s <- randint 0 (m - 1) ;;
      t <- randint 0 (m - 1) ;;
      a <- randint 0 (m - 1) ;;
      b <- pymod (t ^ 2 - s ^ 3 - a * s) m ;;
      smooth <- isSmooth a b m ;;
      if smooth then
        P <- Point.new s t m ;;
        curve <- EC.new a b m ;;
        ret (Some (P, curve))
      else generate_loop n' m
  end.

(** [generateCurvePoint(m, effort)]. *)
Definition generateCurvePoint (m effort : Z) : M (Point.t * EC.t) :=
  found <- generate_loop (Z.to_nat effort) m ;;
  match found with
  | Some pc => ret pc
  | None => raise CurveNotFound
  end.

(** The [for _ in range(effortObs)] loop of [lenstraFactorial], on the
    variables [searching] and [res] ([res] is unbound at first). *)
Fixpoint search_loop (n : nat) (N num effortGen : Z)
         (searching : bool) (res : option value) : M (bool * option value) :=
  match n with
  | O => ret (searching, res)
  | S n' =>
      if negb searching then ret (searching, res)
      else
        '(P, curve) <- generateCurvePoint N effortGen ;;
        '(searching, res) <- EC.mult curve P num ;;
        search_loop n' N num effortGen searching (Some res)
  end.

(** [lenstraFactorial(N, bound, effortObs, effortGen)]. *)
Definition lenstraFactorial (N bound effortObs effortGen : Z) : M value :=
  num <- factorial bound ;;
  '(searching, res) <- search_loop (Z.to_nat effortObs) N num effortGen true None ;;
  if searching then ret (VInt N)
  else match res with
       | Some r => ret r
       | None => raise UnboundLocalError
       end.

(** A world in which only the module-level [identity] exists yet, with the
    random source given by a list (and 0 beyond its end). *)
Definition start (tape : list Z) : world :=
  mkWorld 1 (fun i => nth i tape 0) 0.


(** The values the loop of [generateCurvePoint] works on in its attempt
    number [i] (from 0) when started in state [w] with a positive [m]:
    the draws [s], [t], [a], and [negDisc % m] of [isSmooth(a, b, m)]. *)
Definition draw (m : Z) (w : world) (j : nat) : Z :=
  rng w (drawn w + j)%nat mod m.

Definition attempt_s (m : Z) (w : world) (i : nat) : Z := draw m w (3 * i).
Definition attempt_t (m : Z) (w : world) (i : nat) : Z := draw m w (3 * i + 1).
Definition attempt_a (m : Z) (w : world) (i : nat) : Z := draw m w (3 * i + 2).

Definition attempt_b (m : Z) (w : world) (i : nat) : Z :=
  (attempt_t m w i ^ 2 - attempt_s m w i ^ 3
   - attempt_a m w i * attempt_s m w i) mod m.

Definition attempt_disc (m : Z) (w : world) (i : nat) : Z :=
  (64 * attempt_a m w i ^ 3 + 432 * attempt_b m w i ^ 2) mod m.

(** The point and the curve that attempt [i] builds when it is accepted. *)
Definition attempt_point (m : Z) (w : world) (i : nat) : Point.t :=
  Point.mk (next_oid w) (Affine (attempt_s m w i) (attempt_t m w i)) m.

Definition attempt_curve (m : Z) (w : world) (i : nat) : EC.t :=
  EC.mk (attempt_a m w i) (attempt_b m w i) m.

(** An obstruction over the modulus [N]: a divisor of [N] other than 1
    (possibly [N] itself). *)
Definition obstruction (N g : Z) : Prop := 1 < g <= N /\ (g | N).

(** The points of a computation over the modulus [N]: identity points, and
    points with int coordinates and modulus [N]. *)
Definition point_over (N : Z) (p : Point.t) : Prop :=
  Point.ID p = true \/
  ((exists x y, Point.xy p = Affine x y) /\ Point.modulus p = N).

Definition value_over (N : Z) (v : value) : Prop :=
  match v with
  | VPoint p => point_over N p
  | VInt g => obstruction N g
  end.

(** The pairs [(exists, res)] of [double] and [add]: a point when [exists]
    is true, else the obstruction. *)
Definition result_over (N : Z) (r : bool * value) : Prop :=
  match r with
  | (true, VPoint p) => point_over N p
  | (false, VInt g) => obstruction N g
  | _ => False
  end.

(* ===================================================================== *)
(** ** The curve equation *)
(* ===================================================================== *)

(** [y^2 - (x^3 + a x + b)]: a multiple of the modulus exactly on the curve
    [y**2 = x**3 + ax + b] that the docstrings of [EC] and [isSmooth] name. *)
Definition curve_residue (a b x y : Z) : Z := y ^ 2 - (x ^ 3 + a * x + b).

(** [P] is a point of the curve [E]: an identity point, or int coordinates
    over the modulus of [E] that satisfy the equation modulo it. *)
Definition on_curve (E : EC.t) (P : Point.t) : Prop :=
  match Point.xy P with
  | Affine x y =>
      Point.modulus P = EC.modulus E /\
      (EC.modulus E | curve_residue (EC.a E) (EC.b E) x y)
  | Infinite => True
  | NaNs => False
  end.

Definition value_on_curve (E : EC.t) (v : value) : Prop :=
  match v with
  | VPoint p => on_curve E p
  | VInt _ => True
  end.

(** The coordinates of [P] are principal values, as [__init__] leaves them
    over a positive modulus. *)
Definition reduced (P : Point.t) : Prop :=
  match Point.xy P with
  | Affine x y => 0 <= x < Point.modulus P /\ 0 <= y < Point.modulus P
  | _ => True
  end.

(** The points the group law works on: on the curve, with principal-value
    coordinates. *)
Definition curve_point (E : EC.t) (P : Point.t) : Prop :=
  on_curve E P /\ reduced P.

Definition curve_value (E : EC.t) (v : value) : Prop :=
  match v with
  | VPoint p => curve_point E p
  | VInt _ => True
  end.

(* ===================================================================== *)
(** ** Use of the random source *)
(* ===================================================================== *)

(** The random source is the same in [w'] as in [w], and no draw was made
    in between. *)
Definition same_source (w w' : world) : Prop :=
  rng w' = rng w /\ drawn w' = drawn w.

(** A computation that never calls [randint]. *)
Definition draws_nothing {A : Type} (c : M A) : Prop :=
  forall w a w', c w = Returns (a, w') -> same_source w w'.
(* ===================================================================== *)
(** ** ModularArithmetic: extGCD and modInv *)
(* ===================================================================== *)

(** The examples of the docstring of [extGCD]. *)
Example extGCD_15_2 : extGCD 15 2 = (1, -7, 1).
Proof. reflexivity. Qed.

Example extGCD_12_14 : extGCD 12 14 = (-1, 1, 2).
Proof. reflexivity. Qed.

(** The loop keeps both remainders as integer combinations of the inputs
    [n0] and [m0], and ends on their gcd. *)
Lemma extGCD_loop_bezout (n0 m0 n m prevX x prevY y : Z) :
    0 <= n -> 0 <= m ->
    m = prevX * n0 + prevY * m0 ->
    n = x * n0 + y * m0 ->
    let '(u, v, g) := extGCD_loop n m prevX x prevY y in
    u * n0 + v * m0 = g /\ g = Z.gcd n m.
  Proof.
    funelim (extGCD_loop n m prevX x prevY y); intros Hn Hm HX Hx.
    - subst n. rewrite Z.gcd_0_l, Z.abs_eq by assumption. split; lia.
    - pose proof (Z.mod_pos_bound m n ltac:(lia)) as Hb.
      pose proof (Z.div_mod m n ltac:(lia)) as Hdm.
      match goal with
      | IH : forall _ _ : Z, _ |- _ =>
          pose proof (IH n0 m0 ltac:(lia) Hn Hx ltac:(nia)) as Hrec
      end.
      destruct (extGCD_loop _ _ _ _ _ _) as [[u v] g].
      destruct Hrec as [Hb1 Hg].
      split; [exact Hb1|].
      rewrite Hg, Z.gcd_mod by lia. reflexivity.
Qed.

Lemma extGCD_spec (n m : Z) :
  0 <= n -> 0 <= m ->
  let '(u, v, g) := extGCD n m in
  n * u + m * v = g /\ g = Z.gcd n m.
Proof.
  intros Hn Hm. unfold extGCD.
  pose proof (extGCD_loop_bezout n m n m 0 1 1 0 Hn Hm ltac:(lia) ltac:(lia)) as H.
  destruct (extGCD_loop n m 0 1 1 0) as [[u v] g].
  destruct H as [H1 H2]. split; [lia | exact H2].
Qed.

Lemma gcd_mod_l (n m : Z) : m <> 0 -> Z.gcd (n mod m) m = Z.gcd n m.
Proof.
  intros Hm. rewrite Z.gcd_mod by assumption. apply Z.gcd_comm.
Qed.

(** What [modInv] computes, for a positive modulus. *)
Lemma modInv_run (n m : Z) (w : world) :
  0 < m ->
  exists u v,
    (n mod m) * u + m * v = Z.gcd n m /\
    modInv n m w =
      Returns (if Z.gcd n m =? 1 then (true, u mod m) else (false, Z.gcd n m), w).
Proof.
  intros Hm. unfold modInv, pymod, bind, ret.
  destruct (Z.eqb_spec m 0) as [E|_]; [lia|].
  pose proof (Z.mod_pos_bound n m Hm) as Hb.
  pose proof (extGCD_spec (n mod m) m ltac:(lia) ltac:(lia)) as H.
  destruct (extGCD (n mod m) m) as [[u v] g].
  destruct H as [Hbz Hg]. rewrite gcd_mod_l in Hg by lia.
  rewrite Hg in Hbz |- *. clear Hg g.
  exists u, v. split; [exact Hbz|].
  destruct (Z.gcd n m =? 1); reflexivity.
Qed.

(** C1. For all integers n and m with m > 1: when gcd(n, m) = 1, modInv
    returns (True, inv) with 0 <= inv < m and (n * inv) mod m = 1; otherwise
    it returns (False, g) with g = gcd(n mod m, m) and g > 1. Neither call
    touches the interpreter state. *)
Theorem modInv_correct (n m : Z) (w : world) :
  1 < m ->
  (Z.gcd n m = 1 ->
   exists inv, modInv n m w = Returns ((true, inv), w) /\
               0 <= inv < m /\ (n * inv) mod m = 1) /\
  (Z.gcd n m <> 1 ->
   exists g, modInv n m w = Returns ((false, g), w) /\
             g = Z.gcd (n mod m) m /\ 1 < g).
Proof.
  intros Hm.
  destruct (modInv_run n m w ltac:(lia)) as (u & v & Hbz & Hrun).
  split; intros Hg.
  - exists (u mod m). rewrite Hrun, Hg. cbn. split; [reflexivity|].
    split; [apply Z.mod_pos_bound; lia|].
    rewrite Z.mul_mod_idemp_r by lia.
    rewrite <- Z.mul_mod_idemp_l by lia.
    replace (n mod m * u) with (1 + (- v) * m) by lia.
    rewrite Z.mod_add by lia. apply Z.mod_small; lia.
  - exists (Z.gcd n m). rewrite Hrun.
    destruct (Z.eqb_spec (Z.gcd n m) 1) as [E|_]; [contradiction|].
    split; [reflexivity|]. split; [symmetry; apply gcd_mod_l; lia|].
    pose proof (Z.gcd_nonneg n m).
    assert (Z.gcd n m <> 0) by (intros E0; apply Z.gcd_eq_0_r in E0; lia).
    lia.
Qed.

Lemma modInv_correct_witness :
  1 < 8 /\
  (exists inv, modInv 3 8 (start []) = Returns ((true, inv), start []) /\
               0 <= inv < 8 /\ (3 * inv) mod 8 = 1) /\
  (exists g, modInv 2 6 (start []) = Returns ((false, g), start []) /\
             g = Z.gcd (2 mod 6) 6 /\ 1 < g).
Proof.
  split; [lia|]. split.
  - apply (modInv_correct 3 8 (start []) ltac:(lia)). reflexivity.
  - apply (modInv_correct 2 6 (start []) ltac:(lia)). discriminate.
Defined.

(** [modInv] of a multiple of the modulus, and the two slopes that reach
    it: the tangent at [y = 0] and the secant between equal [x]. *)
Lemma modInv_of_multiple (z m : Z) (w : world) :
  1 < m -> z mod m = 0 -> modInv z m w = Returns ((false, m), w).
Proof.
  intros Hm Hzm.
  destruct (modInv_run z m w ltac:(lia)) as (u & v & _ & Hrun).
  assert (Hg : Z.gcd z m = m).
  { rewrite <- gcd_mod_l, Hzm, Z.gcd_0_l by lia. apply Z.abs_eq; lia. }
  rewrite Hrun, Hg.
  destruct (Z.eqb_spec m 1) as [E|_]; [lia | reflexivity].
Qed.

Lemma tangent_y_zero (E : EC.t) (P : Point.t) (x : Z) (w : world) :
  1 < EC.modulus E -> Point.xy P = Affine x 0 ->
  EC.tangent E P w = Returns ((false, EC.modulus E), w).
Proof.
  intros Hm HP. unfold EC.tangent. rewrite HP. unfold pymod, bind, ret.
  destruct (Z.eqb_spec (EC.modulus E) 0) as [E0|_]; [lia|].
  change (2 * 0) with 0.
  rewrite modInv_of_multiple by (try apply Z.mod_0_l; lia). reflexivity.
Qed.

Lemma modularSlope_congruent_x (P Q : Point.t) (px py qx qy : Z) (w : world) :
  1 < Point.modulus P ->
  Point.xy P = Affine px py -> Point.xy Q = Affine qx qy ->
  (qx - px) mod Point.modulus P = 0 ->
  modularSlope P Q w = Returns ((false, Point.modulus P), w).
Proof.
  intros Hm HP HQ Hx. unfold modularSlope. rewrite HP, HQ. unfold bind.
  rewrite modInv_of_multiple by assumption. reflexivity.
Qed.

(** C10. For every modulus m > 1 and every n that is 0 mod m, modInv
    returns (False, m): the obstruction is the modulus itself. The slopes
    hand it on unchanged: tangent at a point with y = 0, and modularSlope
    between two points with the same x, both return (False, m). *)
Theorem modInv_zero_obstruction (n m : Z) (w : world) :
  1 < m -> n mod m = 0 ->
  modInv n m w = Returns ((false, m), w) /\
  (forall E P x,
     EC.modulus E = m -> Point.xy P = Affine x 0 ->
     EC.tangent E P w = Returns ((false, m), w)) /\
  (forall P Q x y y',
     Point.modulus P = m ->
     Point.xy P = Affine x y -> Point.xy Q = Affine x y' ->
     modularSlope P Q w = Returns ((false, m), w)).
Proof.
  intros Hm Hn.
  split; [apply modInv_of_multiple; assumption|]. split.
  - intros E P x <- HP. apply (tangent_y_zero E P x); assumption.
  - intros P Q x y y' <- HP HQ.
    apply (modularSlope_congruent_x P Q x y x y'); try assumption.
    rewrite Z.sub_diag. apply Z.mod_0_l. lia.
Qed.

Lemma modInv_zero_obstruction_witness :
  1 < 35 /\ 70 mod 35 = 0 /\
  modInv 70 35 (start []) = Returns ((false, 35), start []).
Proof.
  split; [lia|]. split; [reflexivity|].
  apply (modInv_zero_obstruction 70 35 (start []) ltac:(lia) eq_refl).
Defined.

(* ===================================================================== *)
(** ** Point: object identity and the inverse *)
(* ===================================================================== *)

Ltac run := unfold bind, ret, raise, loop_forever, pymod in *; cbn in *.

Lemma eqb_fresh (w : world) (P Q : Point.t) :
  Point.allocated w P -> Point.oid Q = next_oid w -> Point.eqb P Q = false.
Proof.
  unfold Point.allocated, Point.eqb. intros HP HQ.
  apply Nat.eqb_neq. lia.
Qed.

Lemma allocated_bump (w : world) (P : Point.t) :
  Point.allocated w P -> Point.allocated (bump w) P.
Proof. unfold Point.allocated. cbn. lia. Qed.

Opaque float_limit.

(** [P.inverse] builds a new object of the same kind as [P], or raises in
    the reduction by the modulus. *)
Lemma inverse_cases (P : Point.t) (w : world) :
  (exists Q, Point.inverse P w = Returns (Q, bump w) /\
             Point.oid Q = next_oid w /\ Point.ID Q = Point.ID P /\
             Point.modulus Q = (if Point.ID P then 1 else Point.modulus P)) \/
  (exists e, Point.inverse P w = Raises e /\ e <> UnboundLocalError /\
             ~ Point.constructible P).
Proof.
  unfold Point.inverse, Point.ID, Point.constructible.
  destruct (Point.xy P) as [x y| |].
  - unfold Point.new. run.
    destruct (Z.eqb_spec (Point.modulus P) 0) as [E|E].
    + right. eexists. split; [reflexivity|]. split; [discriminate|tauto].
    + left. eexists. split; [reflexivity|]. cbn. auto.
  - left. eexists. split; [reflexivity|]. cbn. auto.
  - unfold Point.new_nan, nonfinite_mod, to_float, bind, ret, raise.
    destruct (Z.ltb_spec (Z.abs (Point.modulus P)) float_limit) as [Hlt|Hge].
    + destruct (Z.eqb_spec (Point.modulus P) 0) as [E|E].
      * right. eexists. split; [reflexivity|]. split; [discriminate|tauto].
      * left. eexists. split; [reflexivity|]. cbn. auto.
    + right. eexists. split; [reflexivity|]. split; [discriminate|lia].
Qed.

Lemma inverse_returns (P : Point.t) (w : world) :
  Point.constructible P ->
  exists Q, Point.inverse P w = Returns (Q, bump w) /\
            Point.oid Q = next_oid w /\ Point.ID Q = Point.ID P.
Proof.
  intros HP. destruct (inverse_cases P w) as [(Q & H & Ho & Hi & _)|(e & _ & _ & H)].
  - exists Q. auto.
  - contradiction.
Qed.

(* ===================================================================== *)
(** ** The curve-independent cases: isCurveInd and resCurveInd *)
(* ===================================================================== *)

(** Comparing a live point with a freshly built inverse never succeeds, so
    [isCurveInd] holds only when one of the two points is the identity. *)
Lemma isCurveInd_true_inv (P Q : Point.t) (k : Z) (w0 w : world) :
  Point.allocated w0 P ->
  isCurveInd P Q k w0 = Returns (true, w) ->
  (Point.ID P = true \/ Point.ID Q = true) /\ w = w0 /\ k_in_range k = true.
Proof.
  intros Halloc. unfold isCurveInd.
  destruct (Point.ID P) eqn:HP; [|destruct (Point.ID Q) eqn:HQ].
  - run. intros [= Hk]. auto.
  - run. intros [= Hk]. auto.
  - unfold bind at 1. unfold bind at 1.
    destruct (inverse_cases Q w0) as [(Qi & -> & Ho & _)|(e & -> & _)].
    + run. rewrite (eqb_fresh w0 P Qi Halloc Ho). cbn. discriminate.
    + discriminate.
Qed.

Lemma resCurveInd_add_site (P Q : Point.t) (w : world) :
  Point.ID P = true \/ Point.ID Q = true ->
  bound_result P Q (resCurveInd P Q 1 w).
Proof.
  intros HID. unfold resCurveInd, bound_result.
  destruct (Point.ID Q) eqn:HQ.
  - left. run. destruct (Point.ID P); eauto.
  - destruct HID as [HP|HQ']; [|discriminate]. rewrite HP. cbn [andb].
    destruct (inverse_cases Q w) as [(Qi & Hi & _)|(e & Hi & He & Hnc)];
      [left | right; exists e]; unfold bind; rewrite Hi.
    + unfold ret. destruct (Point.eqb P Qi || (1 =? 0)); cbn; eauto.
    + auto.
Qed.

Lemma resCurveInd_mult_site (P : Point.t) (k : Z) (w : world) :
  k = -1 \/ k = 0 \/ k = 1 ->
  bound_result P Point.identity (resCurveInd P Point.identity k w).
Proof.
  intros Hk. unfold resCurveInd, bound_result.
  change (Point.ID Point.identity) with true.
  destruct Hk as [->|[->| ->]]; cbn [andb Z.eqb].
  - destruct (inverse_cases P (bump w)) as [(Pi & Hi & _)|(e & Hi & He & Hnc)];
      run.
    + left. destruct (Point.eqb P _); cbn; [|rewrite Hi];
        destruct (Point.ID P); eauto.
    + destruct (Point.eqb P _); cbn.
      * left. destruct (Point.ID P); eauto.
      * right. exists e. rewrite Hi. auto.
  - left. run. rewrite orb_true_r. cbn. destruct (Point.ID P); eauto.
  - left. run. destruct (Point.ID P); eauto.
Qed.

Lemma bound_result_assigned (P Q : Point.t) (o : outcome (Point.t * world)) :
  bound_result P Q o ->
  o <> Raises UnboundLocalError /\
  (Point.constructible P -> Point.constructible Q ->
   exists r w', o = Returns (r, w')).
Proof.
  intros [(r & w' & ->)|(e & -> & He & Hnc)].
  - split; [discriminate | eauto].
  - split; [congruence | tauto].
Qed.

(** C9. resCurveInd always binds its result before returning, at both of
    its call sites: in add, where it runs right after isCurveInd(P, Q) held
    (with k = 1) for a live point P; and in mult, where Q is the identity
    and k is -1, 0 or 1. The call never ends in the unbound-result error,
    and for points that the constructor can build it returns a point. *)
Theorem resCurveInd_result_assigned (P Q : Point.t) :
  (forall w0 w,
     Point.allocated w0 P ->
     isCurveInd P Q 1 w0 = Returns (true, w) ->
     resCurveInd P Q 1 w <> Raises UnboundLocalError /\
     (Point.constructible P -> Point.constructible Q ->
      exists r w', resCurveInd P Q 1 w = Returns (r, w'))) /\
  (forall k w,
     k = -1 \/ k = 0 \/ k = 1 ->
     resCurveInd P Point.identity k w <> Raises UnboundLocalError /\
     (Point.constructible P ->
      exists r w', resCurveInd P Point.identity k w = Returns (r, w'))).
Proof.
  split.
  - intros w0 w Halloc Hind.
    destruct (isCurveInd_true_inv P Q 1 w0 w Halloc Hind) as (HID & -> & _).
    apply bound_result_assigned, resCurveInd_add_site, HID.
  - intros k w Hk.
    destruct (bound_result_assigned _ _ _ (resCurveInd_mult_site P k w Hk))
      as [H1 H2].
    split; [exact H1|]. intros HcP. apply H2; [exact HcP | exact I].
Qed.

Lemma resCurveInd_result_assigned_witness :
  let P := Point.mk 1 (Affine 0 1) 7 in
  let w := mkWorld 2 (fun _ => 0) 0 in
  Point.allocated w P /\
  isCurveInd P Point.identity 1 w = Returns (true, w) /\
  resCurveInd P Point.identity 1 w <> Raises UnboundLocalError /\
  resCurveInd P Point.identity (-1) w <> Raises UnboundLocalError.
Proof.
  intros P w.
  assert (Ha : Point.allocated w P) by (unfold Point.allocated; cbn; lia).
  assert (Hi : isCurveInd P Point.identity 1 w = Returns (true, w))
    by reflexivity.
  split; [exact Ha|]. split; [exact Hi|]. split.
  - exact (proj1 (proj1 (resCurveInd_result_assigned P Point.identity)
                    w w Ha Hi)).
  - exact (proj1 (proj2 (resCurveInd_result_assigned P Point.identity)
                    (-1) w (or_introl eq_refl))).
Defined.

(* ===================================================================== *)
(** ** CurveGroupLaw: mult at the scalars 1, 0 and -k *)
(* ===================================================================== *)

Lemma mult_one (E : EC.t) (P : Point.t) (w : world) :
  EC.mult E P 1 w =
  Returns ((true, VPoint (if Point.ID P then Point.identity else P)), w).
Proof.
  unfold EC.mult, isCurveInd, resCurveInd. run.
  destruct (Point.ID P); reflexivity.
Qed.

Lemma mult_zero (E : EC.t) (P : Point.t) (w : world) :
  EC.mult E P 0 w = Returns ((true, VPoint Point.identity), bump w).
Proof.
  unfold EC.mult, isCurveInd, resCurveInd. run.
  destruct (Point.ID P); cbn; rewrite orb_true_r; reflexivity.
Qed.

(** A negative scalar: [mult] swaps [P] for its inverse and carries on
    with the opposite scalar. *)
Lemma mult_negative (E : EC.t) (P : Point.t) (k : Z) (w : world) :
  0 < k ->
  EC.mult E P (- k) w = (Q <- Point.inverse P ;; EC.mult E Q k) w.
Proof.
  intros Hk. unfold EC.mult at 1.
  destruct (Z.ltb_spec (- k) 0) as [_|H]; [|lia].
  unfold bind at 1. unfold bind at 1. unfold bind at 3.
  destruct (Point.inverse P w) as [[Q w']| |]; try reflexivity.
  cbn. rewrite Z.opp_involutive.
  unfold EC.mult.
  destruct (Z.ltb_spec k 0) as [H|_]; [lia|].
  reflexivity.
Qed.

(** C6. For every point P: mult(P, 1) returns (True, P) (the identity
    object when P is an identity point); mult(P, 0) returns (True, identity);
    and for every k >= 0 and every P the constructor can build, mult(P, -k)
    returns what mult(P.inverse, k) returns. *)
Theorem mult_small_scalars (E : EC.t) (P : Point.t) (k : Z) (w : world) :
  0 <= k -> Point.constructible P ->
  observe (EC.mult E P 1 w) =
    Returns (true, VPoint (if Point.ID P then Point.identity else P)) /\
  observe (EC.mult E P 0 w) = Returns (true, VPoint Point.identity) /\
  observe (EC.mult E P (- k) w) =
    observe ((Q <- Point.inverse P ;; EC.mult E Q k) w).
Proof.
  intros Hk HP.
  split; [rewrite mult_one; reflexivity|].
  split; [rewrite mult_zero; reflexivity|].
  destruct (Z.eq_dec k 0) as [->|Hk0].
  - change (- 0) with 0. rewrite mult_zero.
    destruct (inverse_returns P w HP) as (Q & Hi & _).
    unfold bind. rewrite Hi, mult_zero. reflexivity.
  - rewrite mult_negative by lia. reflexivity.
Qed.

Lemma mult_small_scalars_witness :
  let E := EC.mk 1 1 7 in
  let P := Point.mk 1 (Affine 0 1) 7 in
  let w := mkWorld 2 (fun _ => 0) 0 in
  0 <= 3 /\ Point.constructible P /\
  observe (EC.mult E P 1 w) = Returns (true, VPoint P) /\
  observe (EC.mult E P 0 w) = Returns (true, VPoint Point.identity) /\
  observe (EC.mult E P (- 3) w) =
    observe ((Q <- Point.inverse P ;; EC.mult E Q 3) w).
Proof.
  intros E P w.
  assert (Hc : Point.constructible P) by (cbn; discriminate).
  split; [lia|]. split; [exact Hc|].
  exact (mult_small_scalars E P 3 w ltac:(lia) Hc).
Defined.

(* ===================================================================== *)
(** ** CurveSampler: generateCurvePoint *)
(* ===================================================================== *)

Section Sampler.

Variable m : Z.

Lemma randint_modulus (w : world) :
  0 < m -> randint 0 (m - 1) w = Returns (draw m w 0, tick w).
Proof.
  intros Hm. unfold randint, draw.
  destruct (Z.ltb_spec (m - 1) 0) as [H|_]; [lia|].
  rewrite Nat.add_0_r. replace (m - 1 - 0 + 1) with m by lia.
  reflexivity.
Qed.

Lemma randint_empty (w : world) :
  m <= 0 -> randint 0 (m - 1) w = Raises ValueError.
Proof.
  intros Hm. unfold randint.
  destruct (Z.ltb_spec (m - 1) 0) as [_|H]; [reflexivity | lia].
Qed.

Lemma draw_tick (w : world) (j : nat) : draw m (tick w) j = draw m w (S j).
Proof. unfold draw. cbn. f_equal. f_equal. lia. Qed.

Lemma draw_reduced (w : world) (j : nat) :
  0 < m -> draw m w j mod m = draw m w j.
Proof. intros Hm. unfold draw. apply Z.mod_mod. lia. Qed.

Lemma attempt_disc_shift (w : world) (i : nat) :
  attempt_disc m (tick (tick (tick w))) i = attempt_disc m w (S i).
Proof.
  unfold attempt_disc, attempt_b, attempt_a, attempt_s, attempt_t.
  rewrite !draw_tick.
  replace (S (S (S (3 * i + 2)))) with (3 * S i + 2)%nat by lia.
  replace (S (S (S (3 * i + 1)))) with (3 * S i + 1)%nat by lia.
  replace (S (S (S (3 * i)))) with (3 * S i)%nat by lia.
  reflexivity.
Qed.

(** One round of the loop: the range is empty, or the attempt is
    rejected and the loop goes on, or it is accepted. *)
Lemma generate_loop_step (n : nat) (w : world) :
  0 < m ->
  generate_loop (S n) m w =
  if attempt_disc m w 0 =? 0
  then generate_loop n m (tick (tick (tick w)))
  else Returns (Some (attempt_point m w 0, attempt_curve m w 0),
                bump (tick (tick (tick w)))).
Proof.
  intros Hm. cbn [generate_loop].
  unfold bind at 1. rewrite randint_modulus by assumption.
  unfold bind at 1. rewrite randint_modulus by assumption.
  unfold bind at 1. rewrite randint_modulus by assumption.
  rewrite !draw_tick.
  unfold isSmooth, Point.new, EC.new, pymod, bind, ret.
  destruct (Z.eqb_spec m 0) as [E|_]; [lia|].
  unfold attempt_disc, attempt_b, attempt_a, attempt_s, attempt_t.
  change (3 * 0)%nat with 0%nat. cbn [Nat.add].
  destruct (_ =? 0); [reflexivity|].
  cbn [negb]. unfold Point.alloc, attempt_point, attempt_curve.
  unfold attempt_b, attempt_a, attempt_s, attempt_t.
  change (3 * 0)%nat with 0%nat. cbn [Nat.add].
  rewrite !draw_reduced, Z.mod_mod by lia.
  reflexivity.
Qed.

Lemma generate_loop_empty_range (n : nat) (w : world) :
  m <= 0 -> generate_loop (S n) m w = Raises ValueError.
Proof.
  intros Hm. cbn [generate_loop]. unfold bind at 1.
  rewrite randint_empty by assumption. reflexivity.
Qed.

End Sampler.

(** The loop returns the first accepted attempt, or [None] after [n]
    rejected ones. *)
Lemma generate_loop_outcome (m : Z) (n : nat) (w : world) :
  0 < m ->
  (exists i w',
     (i < n)%nat /\ attempt_disc m w i <> 0 /\
     (forall j, (j < i)%nat -> attempt_disc m w j = 0) /\
     generate_loop n m w =
       Returns (Some (Point.mk (next_oid w)
                               (Affine (attempt_s m w i) (attempt_t m w i)) m,
                      attempt_curve m w i), w')) \/
  (exists w',
     (forall i, (i < n)%nat -> attempt_disc m w i = 0) /\
     generate_loop n m w = Returns (None, w')).
Proof.
  intros Hm. revert w. induction n as [|n IH]; intros w.
  - right. exists w. split; [intros i Hi; lia | reflexivity].
  - rewrite generate_loop_step by assumption.
    destruct (Z.eqb_spec (attempt_disc m w 0) 0) as [H0|H0].
    + destruct (IH (tick (tick (tick w))))
        as [(i & w' & Hi & Hd & Hbefore & Hrun)|(w' & Hall & Hrun)].
      * left. exists (S i), w'. rewrite attempt_disc_shift in Hd.
        split; [lia|]. split; [exact Hd|]. split.
        -- intros [|j] Hj; [exact H0|].
           rewrite <- attempt_disc_shift. apply Hbefore. lia.
        -- rewrite Hrun. unfold attempt_curve, attempt_b, attempt_a,
             attempt_s, attempt_t. rewrite !draw_tick. cbn [next_oid tick].
           replace (S (S (S (3 * i + 2)))) with (3 * S i + 2)%nat by lia.
           replace (S (S (S (3 * i + 1)))) with (3 * S i + 1)%nat by lia.
           replace (S (S (S (3 * i)))) with (3 * S i)%nat by lia.
           reflexivity.
      * right. exists w'. split; [|exact Hrun].
        intros [|i] Hi; [exact H0|].
        rewrite <- attempt_disc_shift. apply Hall. lia.
    + left. exists 0%nat, (bump (tick (tick (tick w)))).
      split; [lia|]. split; [exact H0|]. split; [intros j Hj; lia|].
      reflexivity.
Qed.

(** The sampled point satisfies the equation of the sampled curve. *)
Lemma attempt_on_curve (m : Z) (w : world) (i : nat) :
  0 < m ->
  (attempt_t m w i ^ 2) mod m =
  (attempt_s m w i ^ 3 + attempt_a m w i * attempt_s m w i
   + attempt_b m w i) mod m.
Proof.
  intros Hm. unfold attempt_b.
  rewrite Z.add_mod_idemp_r by lia. f_equal. ring.
Qed.

(** C8. generateCurvePoint(m, effort) never loops: it returns or raises.
    What it returns is a pair (P, curve) over the modulus m with P on the
    curve and 64 a^3 + 432 b^2 not 0 mod m. For a positive m it raises
    exactly when each of its effort attempts drew a curve whose
    discriminant is 0 mod m; for m <= 0 it always raises. *)
Theorem generateCurvePoint_spec (m effort : Z) (w : world) :
  generateCurvePoint m effort w <> Diverges /\
  (forall P curve w',
     generateCurvePoint m effort w = Returns ((P, curve), w') ->
     exists x y,
       Point.xy P = Affine x y /\ Point.modulus P = m /\
       EC.modulus curve = m /\
       (y ^ 2) mod m = (x ^ 3 + EC.a curve * x + EC.b curve) mod m /\
       (64 * EC.a curve ^ 3 + 432 * EC.b curve ^ 2) mod m <> 0) /\
  (0 < m ->
   ((exists e, generateCurvePoint m effort w = Raises e) <->
    (forall i, (i < Z.to_nat effort)%nat -> attempt_disc m w i = 0))) /\
  (m <= 0 -> exists e, generateCurvePoint m effort w = Raises e).
Proof.
  unfold generateCurvePoint, bind.
  destruct (Z_lt_le_dec 0 m) as [Hm|Hm].
  - destruct (generate_loop_outcome m (Z.to_nat effort) w Hm)
      as [(i & w1 & Hi & Hd & Hbefore & ->)|(w1 & Hall & ->)]; cbv beta iota.
    + split; [discriminate|]. split; [|split].
      * intros P curve w' [= <- <- <-].
        exists (attempt_s m w i), (attempt_t m w i).
        unfold attempt_curve. cbn [Point.xy Point.modulus EC.modulus EC.a EC.b].
        repeat split; [apply attempt_on_curve; exact Hm | exact Hd].
      * intros _. split.
        -- intros [e He]. discriminate.
        -- intros Hno. exfalso. apply Hd, Hno, Hi.
      * intros Hle. lia.
    + split; [discriminate|]. split; [|split].
      * intros P curve w'. discriminate.
      * intros _. split; [intros _; exact Hall|].
        intros _. eexists. reflexivity.
      * intros Hle. lia.
  - destruct (Z.to_nat effort) as [|n] eqn:Hn.
    + cbn. split; [discriminate|]. split; [|split].
      * intros P curve w'. discriminate.
      * intros Hlt. lia.
      * intros _. eexists. reflexivity.
    + rewrite generate_loop_empty_range by assumption.
      split; [discriminate|]. split; [|split].
      * intros P curve w'. discriminate.
      * intros Hlt. lia.
      * intros _. eexists. reflexivity.
Qed.

Lemma generateCurvePoint_spec_witness :
  0 < 35 /\
  generateCurvePoint 35 100 (start [0; 5; 1]) <> Diverges /\
  (exists x y,
     Affine 0 5 = Affine x y /\ 35 = 35 /\ 35 = 35 /\
     (y ^ 2) mod 35 = (x ^ 3 + 1 * x + 25) mod 35 /\
     (64 * 1 ^ 3 + 432 * 25 ^ 2) mod 35 <> 0) /\
  ((exists e, generateCurvePoint 35 1 (start [0; 0; 0]) = Raises e) <->
   (forall i, (i < Z.to_nat 1)%nat -> attempt_disc 35 (start [0; 0; 0]) i = 0)).
Proof.
  split; [lia|]. split; [|split].
  - exact (proj1 (generateCurvePoint_spec 35 100 (start [0; 5; 1]))).
  - exact (proj1 (proj2 (generateCurvePoint_spec 35 100 (start [0; 5; 1])))
             (Point.mk 1 (Affine 0 5) 35) (EC.mk 1 25 35)
             (bump (tick (tick (tick (start [0; 5; 1]))))) eq_refl).
  - exact (proj1 (proj2 (proj2 (generateCurvePoint_spec 35 1 (start [0; 0; 0]))))
             ltac:(lia)).
Defined.

(* ===================================================================== *)
(** ** Object identity in the group law *)
(* ===================================================================== *)

(** Two constructor calls give two objects, whatever their arguments. *)
Lemma new_twice_distinct (x y m : Z) (w : world) :
  m <> 0 ->
  exists P Q w',
    (P <- Point.new x y m ;; Q <- Point.new x y m ;; ret (P, Q)) w
      = Returns ((P, Q), w') /\
    Point.xy P = Point.xy Q /\ Point.modulus P = Point.modulus Q /\
    Point.eqb P Q = false.
Proof.
  intros Hm. unfold Point.new, Point.alloc. run.
  destruct (Z.eqb_spec m 0) as [E|_]; [contradiction|].
  do 3 eexists. split; [reflexivity|]. cbn. repeat split.
  unfold Point.eqb. cbn. apply Nat.eqb_neq. lia.
Qed.

(** The test [P == P.inverse] of [double] is always false: the inverse is
    a new object. So a live point with [y = 0] goes on to the tangent, and
    the result is the obstruction [m]. *)
Lemma double_y_zero (E : EC.t) (P : Point.t) (x : Z) (w : world) :
  1 < EC.modulus E -> Point.modulus P <> 0 ->
  Point.allocated w P -> Point.xy P = Affine x 0 ->
  EC.double E P w = Returns ((false, VInt (EC.modulus E)), bump w).
Proof.
  intros Hm HmP Ha HP. unfold EC.double.
  assert (HcP : Point.constructible P)
    by (unfold Point.constructible; rewrite HP; exact HmP).
  destruct (inverse_returns P w HcP) as (Pi & Hi & Ho & _).
  unfold bind at 1. rewrite Hi.
  rewrite (eqb_fresh w P Pi Ha Ho).
  unfold bind. rewrite (tangent_y_zero E P x) by assumption. reflexivity.
Qed.

(** For the same reason [add(P, P.inverse)] takes the secant between two
    points of equal [x]. *)
Lemma add_inverse_obstruction (E : EC.t) (P : Point.t) (x y : Z) (w : world) :
  1 < Point.modulus P ->
  Point.allocated w P -> Point.xy P = Affine x y ->
  observe ((Q <- Point.inverse P ;; EC.add E P Q) w)
  = Returns (false, VInt (Point.modulus P)).
Proof.
  intros Hm Ha HP.
  assert (HQ : Point.inverse P w =
               Returns (Point.mk (next_oid w)
                          (Affine (x mod Point.modulus P)
                             ((if negb (y =? 0) then Point.modulus P - y else 0)
                              mod Point.modulus P))
                          (Point.modulus P), bump w)).
  { unfold Point.inverse, Point.new, Point.alloc. rewrite HP. run.
    destruct (Z.eqb_spec (Point.modulus P) 0) as [E0|_]; [lia | reflexivity]. }
  unfold bind at 1. rewrite HQ.
  set (Q := Point.mk _ _ _).
  unfold EC.add.
  rewrite (eqb_fresh w P Q Ha eq_refl).
  unfold bind at 1. unfold isCurveInd.
  assert (HIDP : Point.ID P = false) by (unfold Point.ID; rewrite HP; reflexivity).
  rewrite HIDP. change (Point.ID Q) with false. cbv iota.
  unfold bind at 1. unfold bind at 1.
  destruct (inverse_cases Q (bump w)) as [(Qi & -> & Ho & _)|(e & _ & _ & Hnc)].
  2:{ exfalso. apply Hnc. unfold Point.constructible. cbn. lia. }
  unfold ret at 1.
  rewrite (eqb_fresh (bump w) P Qi (allocated_bump w P Ha) Ho).
  cbn [andb]. unfold ret at 1. cbv iota.
  unfold bind at 1.
  rewrite (modularSlope_congruent_x P Q x y _ _ (bump (bump w)) Hm HP eq_refl).
  - reflexivity.
  - rewrite Zminus_mod_idemp_l, Z.sub_diag. apply Z.mod_0_l. lia.
Qed.

(** [add(P, identity)] for a point other than the identity object. *)
Lemma add_identity_r (E : EC.t) (P : Point.t) (w : world) :
  Point.ID P = false -> Point.oid P <> 0%nat ->
  EC.add E P Point.identity w = Returns ((true, VPoint P), w).
Proof.
  intros HID Ho. unfold EC.add.
  replace (Point.eqb P Point.identity) with false
    by (symmetry; apply Nat.eqb_neq; exact Ho).
  unfold isCurveInd, resCurveInd. rewrite HID. reflexivity.
Qed.

(** C3. Two separately constructed Point objects with the same coordinates
    and modulus do not compare equal: Point(1, 2, 5) built twice gives
    P == Q false with equal x, y and modulus, while P == P is true. *)
Theorem Point_eq_separately_constructed :
  observe ((P <- Point.new 1 2 5 ;;
            Q <- Point.new 1 2 5 ;;
            ret (Point.xy P, Point.xy Q, Point.modulus P, Point.modulus Q,
                 Point.eqb P Q, Point.eqb P P)) (start []))
  = Returns (Affine 1 2, Affine 1 2, 5, 5, false, true).
Proof. reflexivity. Qed.

(** C4. The point (0, 0) of y^2 = x^3 + x over Z/5Z is its own inverse,
    yet double runs the modular inversion of 2y = 0 and returns (False, 5)
    instead of (True, identity). *)
Theorem double_self_inverse_point :
  observe ((P <- Point.new 0 0 5 ;;
            E <- EC.new 1 0 5 ;;
            Pi <- Point.inverse P ;;
            r <- EC.double E P ;;
            ret (Point.xy P, Point.xy Pi, r)) (start []))
  = Returns (Affine 0 0, Affine 0 0, (false, VInt 5)).
Proof. reflexivity. Qed.

(** C5. For the point P = (0, 1) of y^2 = x^3 + x + 1 over Z/7Z,
    add(P, P.inverse) returns (False, 7) instead of (True, identity);
    add(P, identity) does return (True, P). *)
Theorem add_inverse_and_identity :
  observe ((P <- Point.new 0 1 7 ;;
            E <- EC.new 1 1 7 ;;
            Pi <- Point.inverse P ;;
            r1 <- EC.add E P Pi ;;
            r2 <- EC.add E P Point.identity ;;
            ret (P, Point.xy Pi, r1, r2)) (start []))
  = Returns (Point.mk 1 (Affine 0 1) 7, Affine 0 6, (false, VInt 7),
             (true, VPoint (Point.mk 1 (Affine 0 1) 7))).
Proof. reflexivity. Qed.

(** C7. For P = (0, 1) on y^2 = x^3 + x + 1 over Z/7Z (a smooth curve, a
    prime modulus): mult(P, 2) and mult(P, 3) return (True, (2, 5)) and
    (True, (2, 2)), but mult(P, 2 + 3) returns (False, 7), and so does add
    on the two values. *)
Theorem mult_sum_of_scalars :
  observe ((P <- Point.new 0 1 7 ;;
            E <- EC.new 1 1 7 ;;
            smooth <- isSmooth 1 1 7 ;;
            '(e2, r2) <- EC.mult E P 2 ;;
            '(e3, r3) <- EC.mult E P 3 ;;
            p2 <- EC.as_point r2 ;;
            p3 <- EC.as_point r3 ;;
            sum <- EC.add E p2 p3 ;;
            r5 <- EC.mult E P 5 ;;
            ret (smooth, (e2, Point.xy p2), (e3, Point.xy p3), sum, r5))
             (start []))
  = Returns (true, (true, Affine 2 5), (true, Affine 2 2),
             (false, VInt 7), (false, VInt 7)).
Proof. reflexivity. Qed.

(** C2. lenstraFactorial(35, 3, 10, 100), when the first draws are
    s = 0, t = 5, a = 1, returns the identity Point: the first doubling
    meets the obstruction 5, and mult hands back its accumulator instead. *)
Theorem lenstraFactorial_returns_point :
  observe (lenstraFactorial 35 3 10 100 (start [0; 5; 1]))
  = Returns (VPoint Point.identity) /\
  observe ((P <- Point.new 0 5 35 ;;
            E <- EC.new 1 25 35 ;;
            d <- EC.double E P ;;
            r <- EC.mult E P 6 ;;
            ret (d, r)) (start []))
  = Returns ((false, VInt 5), (false, VPoint Point.identity)).
Proof. split; reflexivity. Qed.

(* ===================================================================== *)
(** ** LenstraSearch: what the integers returned are *)
(* ===================================================================== *)

Lemma bind_returns {A B : Type} (c : M A) (k : A -> M B) (w : world)
      (r : B * world) :
  bind c k w = Returns r ->
  exists a w1, c w = Returns (a, w1) /\ k a w1 = Returns r.
Proof.
  unfold bind. destruct (c w) as [[a w1]|e|]; try discriminate. eauto.
Qed.

Ltac bind_inv H :=
  let a := fresh "a" in
  let w := fresh "w" in
  let H1 := fresh "Hrun" in
  apply bind_returns in H; destruct H as (a & w & H1 & H).

Section Obstructions.

Variable N : Z.
Hypothesis N_gt_1 : 1 < N.

Lemma gcd_obstruction (n : Z) : Z.gcd n N <> 1 -> obstruction N (Z.gcd n N).
Proof.
  intros Hg. pose proof (Z.gcd_nonneg n N) as Hnn.
  pose proof (Z.gcd_divide_r n N) as Hdiv.
  assert (Z.gcd n N <> 0) by (intros E0; apply Z.gcd_eq_0_r in E0; lia).
  split; [|exact Hdiv].
  split; [lia|]. apply Z.divide_pos_le; [lia | exact Hdiv].
Qed.

(** [modInv] over [N] inverts, or reports an obstruction. *)
Lemma modInv_over (n : Z) (w w' : world) (e : bool) (z : Z) :
  modInv n N w = Returns ((e, z), w') ->
  e = true \/ (e = false /\ obstruction N z).
Proof.
  destruct (modInv_run n N w ltac:(lia)) as (u & v & _ & ->).
  destruct (Z.eqb_spec (Z.gcd n N) 1) as [_|Hg]; intros [= <- <- _].
  - left. reflexivity.
  - right. split; [reflexivity | apply gcd_obstruction; exact Hg].
Qed.

Lemma tangent_over (E : EC.t) (P : Point.t) (w w' : world) (e : bool) (z : Z) :
  EC.modulus E = N ->
  EC.tangent E P w = Returns ((e, z), w') ->
  (exists x y, Point.xy P = Affine x y) /\
  (e = true \/ (e = false /\ obstruction N z)).
Proof.
  intros HE. unfold EC.tangent.
  destruct (Point.xy P) as [x y| |].
  - intros H. split; [eauto|]. rewrite HE in H.
    bind_inv H. bind_inv H. destruct a0 as [e0 z0].
    apply modInv_over in Hrun0.
    destruct e0.
    + bind_inv H. injection H as <- _ _. left. reflexivity.
    + injection H as <- <- _. exact Hrun0.
  - unfold to_float, nonfinite_mod, to_float, bind, ret, raise, loop_forever.
    destruct (_ <? _); [destruct (_ <? _); [destruct (_ =? _)|]|]; discriminate.
  - unfold to_float, nonfinite_mod, to_float, bind, ret, raise, loop_forever.
    destruct (_ <? _); [destruct (_ <? _); [destruct (_ =? _)|]|]; discriminate.
Qed.

Lemma float_path_no_return {A : Type} (cp cq : coords) (m : Z)
      (w : world) (r : A * world) :
  (float_operands cp cq ;;; nonfinite_mod m ;;; loop_forever) w <> Returns r.
Proof.
  unfold float_operands, nonfinite_mod, to_float, bind, ret, raise, loop_forever.
  destruct cp, cq;
    repeat match goal with
           | |- context [if ?c then _ else _] => destruct c
           end; discriminate.
Qed.

Lemma modularSlope_over (P Q : Point.t) (w w' : world) (e : bool) (z : Z) :
  (Point.ID P = false -> Point.modulus P = N) ->
  modularSlope P Q w = Returns ((e, z), w') ->
  (exists x y, Point.xy P = Affine x y) /\
  (exists x y, Point.xy Q = Affine x y) /\
  (e = true \/ (e = false /\ obstruction N z)).
Proof.
  intros HP. unfold modularSlope, Point.ID in *.
  destruct (Point.xy P) as [px py| |] eqn:EP;
    destruct (Point.xy Q) as [qx qy| |] eqn:EQ;
    try (intros H; exfalso; revert H; apply float_path_no_return).
  intros H. split; [eauto|]. split; [eauto|].
  rewrite (HP eq_refl) in H.
  bind_inv H. destruct a as [e0 z0]. apply modInv_over in Hrun.
  destruct e0.
  - bind_inv H. injection H as <- _ _. left. reflexivity.
  - injection H as <- <- _. exact Hrun.
Qed.

Lemma new_over (x y : Z) (w w' : world) (p : Point.t) :
  Point.new x y N w = Returns (p, w') -> point_over N p.
Proof.
  unfold Point.new, Point.alloc. intros H.
  bind_inv H. bind_inv H. injection H as <- _.
  right. cbn. eauto.
Qed.

Lemma add_sumExists_over (E : EC.t) (P Q : Point.t) (s : Z)
      (w w' : world) (r : Point.t) :
  EC.modulus E = N ->
  (exists x y, Point.xy P = Affine x y) ->
  (exists x y, Point.xy Q = Affine x y) ->
  EC.add_sumExists E P Q s w = Returns (r, w') -> point_over N r.
Proof.
  intros HE (px & py & HP) (qx & qy & HQ). unfold EC.add_sumExists.
  rewrite HP, HQ, HE. apply new_over.
Qed.

Lemma inverse_over (P : Point.t) (w w' : world) (Q : Point.t) :
  point_over N P -> Point.inverse P w = Returns (Q, w') -> point_over N Q.
Proof.
  unfold point_over, Point.inverse, Point.ID.
  intros [HID|[(x & y & Hxy) Hm]].
  - destruct (Point.xy P); try discriminate.
    intros [= <- _]. left. reflexivity.
  - rewrite Hxy, Hm. intros H. apply new_over in H. exact H.
Qed.

Lemma identity_over : point_over N Point.identity.
Proof. left. reflexivity. Qed.

(** Whatever branch binds it, the result of [resCurveInd] is one of its
    arguments, the identity, or the inverse of [P]. *)
Lemma resCurveInd_over (P Q : Point.t) (k : Z) (w w' : world) (r : Point.t) :
  point_over N P -> point_over N Q ->
  resCurveInd P Q k w = Returns (r, w') -> point_over N r.
Proof.
  intros HP HQ. unfold resCurveInd. intros H.
  bind_inv H.
  assert (Ha : match a with Some p => point_over N p | None => True end).
  { destruct (Point.ID Q && (k =? 1)).
    - injection Hrun as <- _. exact HP.
    - bind_inv Hrun.
      destruct (Point.eqb P a0 || (k =? 0)).
      + injection Hrun as <- _. exact identity_over.
      + destruct (k =? -1).
        * bind_inv Hrun. injection Hrun as <- _.
          exact (inverse_over P _ _ _ HP Hrun1).
        * injection Hrun as <- _. exact I. }
  destruct (Point.ID P).
  - injection H as <- _. exact HQ.
  - destruct a as [p|]; [|discriminate].
    injection H as <- _. exact Ha.
Qed.

Lemma double_over (E : EC.t) (P : Point.t) (w w' : world) (r : bool * value) :
  EC.modulus E = N ->
  EC.double E P w = Returns (r, w') -> result_over N r.
Proof.
  intros HE. unfold EC.double. intros H.
  bind_inv H.
  destruct (Point.eqb P a).
  - injection H as <- _. exact identity_over.
  - bind_inv H. destruct a0 as [e z].
    destruct (tangent_over E P _ _ e z HE Hrun0) as [Haff [->|[-> Hobs]]].
    + bind_inv H. injection H as <- _.
      exact (add_sumExists_over E P P z _ _ _ HE Haff Haff Hrun1).
    + injection H as <- _. exact Hobs.
Qed.

Lemma add_over (E : EC.t) (P Q : Point.t) (w w' : world) (r : bool * value) :
  EC.modulus E = N -> point_over N P -> point_over N Q ->
  EC.add E P Q w = Returns (r, w') -> result_over N r.
Proof.
  intros HE HP HQ. unfold EC.add.
  destruct (Point.eqb P Q); [apply double_over; exact HE|].
  intros H. bind_inv H. destruct a.
  - bind_inv H. injection H as <- _.
    exact (resCurveInd_over P Q 1 _ _ _ HP HQ Hrun0).
  - bind_inv H. destruct a as [e z].
    assert (HmP : Point.ID P = false -> Point.modulus P = N).
    { intros HID. destruct HP as [HP|[_ HP]]; [congruence | exact HP]. }
    destruct (modularSlope_over P Q _ _ e z HmP Hrun0)
      as (HaP & HaQ & [->|[-> Hobs]]).
    + bind_inv H. injection H as <- _.
      exact (add_sumExists_over E P Q z _ _ _ HE HaP HaQ Hrun1).
    + injection H as <- _. exact Hobs.
Qed.

Lemma result_value_over (r : bool * value) :
  result_over N r ->
  value_over N (snd r) /\
  (fst r = true -> exists p, snd r = VPoint p /\ point_over N p).
Proof.
  destruct r as [[|] [p|g]]; cbn; try contradiction; intros H.
  - split; [exact H | eauto].
  - split; [exact H | discriminate].
Qed.

(** The loop of [mult] ends with a point or an obstruction in [res]. *)
Lemma mult_loop_over (E : EC.t) (bits : list bool) :
  EC.modulus E = N ->
  forall (e : bool) (res P : value) (w w' : world) (r : bool * value),
    value_over N res ->
    (e = true -> exists p, P = VPoint p /\ point_over N p) ->
    EC.mult_loop E bits e res P w = Returns (r, w') ->
    value_over N (snd r).
Proof.
  intros HE. induction bits as [|bit rest IH]; intros e res P w w' r Hres HP.
  - cbn. intros [= <- _]. exact Hres.
  - cbn [EC.mult_loop]. destruct e; cbn [negb].
    2:{ intros [= <- _]. exact Hres. }
    destruct (HP eq_refl) as (p & -> & Hp).
    destruct bit.
    + intros H. bind_inv H. injection Hrun as <- <-.
      bind_inv H. destruct res as [q|g]; [|discriminate].
      injection Hrun as <- <-.
      bind_inv H. destruct a as [e1 r1].
      pose proof (add_over E p q _ _ _ HE Hp Hres Hrun) as Hadd.
      apply result_value_over in Hadd. cbn [fst snd] in Hadd.
      destruct Hadd as [Hv1 Hp1].
      destruct e1; cbn [negb] in H.
      * bind_inv H. destruct a as [e2 P2].
        pose proof (double_over E p _ _ _ HE Hrun0) as Hdbl.
        apply result_value_over in Hdbl. cbn [fst snd] in Hdbl.
        exact (IH e2 r1 P2 _ _ _ Hv1 (proj2 Hdbl) H).
      * injection H as <- _. exact Hv1.
    + intros H. bind_inv H. injection Hrun as <- <-.
      bind_inv H. destruct a as [e2 P2].
      pose proof (double_over E p _ _ _ HE Hrun) as Hdbl.
      apply result_value_over in Hdbl. cbn [fst snd] in Hdbl.
      exact (IH e2 res P2 _ _ _ Hres (proj2 Hdbl) H).
Qed.

Lemma mult_over (E : EC.t) (P : Point.t) (k : Z) (w w' : world)
      (r : bool * value) :
  EC.modulus E = N -> point_over N P ->
  EC.mult E P k w = Returns (r, w') -> value_over N (snd r).
Proof.
  intros HE HP. unfold EC.mult. intros H.
  bind_inv H. destruct a as [P' k'].
  assert (HP' : point_over N P').
  { destruct (k <? 0).
    - bind_inv Hrun. injection Hrun as <- _ _.
      exact (inverse_over P _ _ _ HP Hrun0).
    - injection Hrun as <- _ _. exact HP. }
  bind_inv H. destruct a.
  - bind_inv H. injection H as <- _.
    exact (resCurveInd_over P' Point.identity k' _ _ _ HP' identity_over Hrun1).
  - refine (mult_loop_over E _ HE true (VPoint Point.identity) (VPoint P')
              _ _ _ identity_over _ H).
    intros _. eauto.
Qed.

Lemma generateCurvePoint_over (effort : Z) (w w' : world)
      (P : Point.t) (curve : EC.t) :
  generateCurvePoint N effort w = Returns ((P, curve), w') ->
  point_over N P /\ EC.modulus curve = N.
Proof.
  unfold generateCurvePoint, bind.
  destruct (generate_loop_outcome N (Z.to_nat effort) w ltac:(lia))
    as [(i & w1 & _ & _ & _ & ->)|(w1 & _ & ->)]; [|discriminate].
  intros [= <- <- _]. split; [|reflexivity].
  right. cbn. eauto.
Qed.

Lemma search_loop_over (num effortGen : Z) (n : nat) :
  forall (searching : bool) (res : option value) (w w' : world)
         (s : bool) (r : option value),
    (searching = false -> exists v, res = Some v /\ value_over N v) ->
    search_loop n N num effortGen searching res w = Returns ((s, r), w') ->
    s = false -> exists v, r = Some v /\ value_over N v.
Proof.
  induction n as [|n IH]; intros searching res w w' s r Hres.
  - cbn. intros [= <- <- _]. exact Hres.
  - cbn [search_loop]. destruct searching; cbn [negb].
    2:{ intros [= <- <- _]. exact Hres. }
    intros H. bind_inv H. destruct a as [P curve].
    destruct (generateCurvePoint_over _ _ _ _ _ Hrun) as [HP HE].
    bind_inv H. destruct a as [s1 r1].
    pose proof (mult_over curve P num _ _ _ HE HP Hrun0) as Hv.
    cbn [snd] in Hv.
    refine (IH s1 (Some r1) _ _ _ _ _ H).
    intros _. eauto.
Qed.

(** Whenever [lenstraFactorial] returns an int, it is [N] or a proper
    divisor of [N]. *)
Lemma lenstraFactorial_int (bound effortObs effortGen : Z)
      (w w' : world) (g : Z) :
  lenstraFactorial N bound effortObs effortGen w = Returns (VInt g, w') ->
  g = N \/ (1 < g < N /\ (g | N)).
Proof.
  unfold lenstraFactorial. intros H.
  bind_inv H. bind_inv H. destruct a0 as [s r].
  destruct s.
  - injection H as <- _. left. reflexivity.
  - destruct (search_loop_over _ _ _ _ _ _ _ _ _
                (fun Hf => False_ind _ (diff_true_false Hf)) Hrun0 eq_refl)
      as (v & -> & Hv).
    injection H as -> _. destruct Hv as [Hrange Hdiv].
    destruct (Z.eq_dec g N); [left; assumption | right; split; [lia|exact Hdiv]].
Qed.

End Obstructions.

(** When the search loop ends with [searching] still true, that is when no
    call of [mult] came back with [exists] false, the answer is [N]. *)
Lemma lenstraFactorial_exhausted (N bound effortObs effortGen num : Z)
      (w w0 w' : world) (res : option value) :
  factorial bound w = Returns (num, w0) ->
  search_loop (Z.to_nat effortObs) N num effortGen true None w0
    = Returns ((true, res), w') ->
  lenstraFactorial N bound effortObs effortGen w = Returns (VInt N, w').
Proof.
  intros Hf Hs. unfold lenstraFactorial, bind. rewrite Hf, Hs. reflexivity.
Qed.

(** A run that finds a factor: with the draws s = 2, t = 1, a = 2 the
    search over Z/35Z with 4! as scalar returns 7. *)
Example lenstraFactorial_35_finds_7 :
  observe (lenstraFactorial 35 4 1 100 (start [2; 1; 2])) = Returns (VInt 7).
Proof. vm_compute. reflexivity. Qed.

(** [double] of an identity point never returns: the test against the new
    inverse fails, and the tangent runs on float('inf'). *)
Lemma double_identity_no_return (E : EC.t) (P : Point.t) (w : world)
      (r : (bool * value) * world) :
  Point.ID P = true -> Point.allocated w P ->
  EC.double E P w <> Returns r.
Proof.
  intros HID Ha H. unfold EC.double in H.
  bind_inv H.
  destruct (inverse_cases P w) as [(Q & HQ & Ho & _)|(e & HQ & _)];
    rewrite HQ in Hrun; [|discriminate].
  injection Hrun as <- <-.
  rewrite (eqb_fresh w P Q Ha Ho) in H.
  bind_inv H. clear H. revert Hrun.
  unfold EC.tangent, Point.ID in *.
  destruct (Point.xy P); try discriminate.
  unfold to_float, nonfinite_mod, to_float, bind, ret, raise, loop_forever.
  repeat match goal with
         | |- context [if ?c then _ else _] => destruct c
         end; discriminate.
Qed.

Example double_identity_diverges :
  observe (EC.double (EC.mk 1 0 5) Point.identity (start [])) = Diverges.
Proof. vm_compute. reflexivity. Qed.

(* ===================================================================== *)
(** ** Further properties of the arithmetic helpers *)
(* ===================================================================== *)

Lemma cong_iff_divide (m a b : Z) :
  m <> 0 -> (a mod m = b mod m <-> (m | a - b)).
Proof.
  intros Hm. split.
  - intros H. exists (a / m - b / m).
    pose proof (Z.div_mod a m Hm). pose proof (Z.div_mod b m Hm). nia.
  - intros [k Hk]. replace a with (b + k * m) by lia.
    apply Z.mod_add. exact Hm.
Qed.

Lemma mod_sub_divide (m x : Z) : m <> 0 -> (m | x mod m - x).
Proof.
  intros Hm. apply cong_iff_divide; [exact Hm|]. apply Z.mod_mod. exact Hm.
Qed.

(** The loop invariant of [extGCD] without any sign condition: the result
    is the gcd up to sign. *)
Lemma extGCD_loop_bezout_abs (n0 m0 n m prevX x prevY y : Z) :
  m = prevX * n0 + prevY * m0 ->
  n = x * n0 + y * m0 ->
  let '(u, v, g) := extGCD_loop n m prevX x prevY y in
  u * n0 + v * m0 = g /\ Z.abs g = Z.gcd n m.
Proof.
  funelim (extGCD_loop n m prevX x prevY y); intros HX Hx.
  - split; [lia|].
    match goal with Hz : n = 0 |- _ => rewrite Hz end.
    symmetry. apply Z.gcd_0_l.
  - pose proof (Z.div_mod m n ltac:(assumption)) as Hdm.
    match goal with
    | IH : forall _ _ : Z, _ |- _ =>
        pose proof (IH n0 m0 Hx ltac:(nia)) as Hrec
    end.
    destruct (extGCD_loop _ _ _ _ _ _) as [[u v] g].
    destruct Hrec as [Hb1 Hg].
    split; [exact Hb1|].
    rewrite Hg, Z.gcd_mod by assumption. reflexivity.
Qed.

(** X1. extGCD(n, m) returns Bezout coefficients for all integers n and m,
    of either sign and zero included: n*a + m*b = c, and c is gcd(n, m) up
    to sign. *)
Theorem extGCD_bezout (n m : Z) :
  let '(a, b, c) := extGCD n m in
  n * a + m * b = c /\ Z.abs c = Z.gcd n m.
Proof.
  unfold extGCD.
  pose proof (extGCD_loop_bezout_abs n m n m 0 1 1 0 ltac:(lia) ltac:(lia)) as H.
  destruct (extGCD_loop n m 0 1 1 0) as [[u v] g].
  destruct H as [H1 H2]. split; [lia | exact H2].
Qed.

(** X2. modInv does not need the principal value of n: adding any multiple
    of m to n gives the same result (and the same error when m = 0). *)
Theorem modInv_representative (n k m : Z) (w : world) :
  modInv (n + k * m) m w = modInv n m w.
Proof.
  unfold modInv, pymod, bind.
  destruct (Z.eqb_spec m 0) as [E|E]; [reflexivity|].
  unfold ret. rewrite Z.mod_add by exact E. reflexivity.
Qed.

Lemma modInv_true (n m i : Z) (w w' : world) :
  0 < m ->
  modInv n m w = Returns ((true, i), w') ->
  w' = w /\ 0 <= i < m /\ (m | n * i - 1).
Proof.
  intros Hm.
  destruct (modInv_run n m w Hm) as (u & v & Hbz & ->).
  destruct (Z.eqb_spec (Z.gcd n m) 1) as [Hg|Hg]; [|discriminate].
  intros [= <- <-]. split; [reflexivity|].
  split; [apply Z.mod_pos_bound; exact Hm|].
  destruct (mod_sub_divide m n ltac:(lia)) as [kn Hkn].
  destruct (mod_sub_divide m u ltac:(lia)) as [ku Hku].
  exists (n * ku - kn * u - v). nia.
Qed.

(** X3. Inverting twice gives back the principal value: when modInv(n, m)
    succeeds with inv, modInv(inv, m) succeeds with n mod m. *)
Theorem modInv_involutive (n m inv : Z) (w w' : world) :
  0 < m ->
  modInv n m w = Returns ((true, inv), w') ->
  modInv inv m w = Returns ((true, n mod m), w).
Proof.
  intros Hm H.
  destruct (modInv_true n m inv w w' Hm H) as (_ & Hr & [k Hk]).
  destruct (modInv_run inv m w Hm) as (u & v & Hbz & ->).
  assert (Hg : Z.gcd inv m = 1).
  { pose proof (Z.gcd_nonneg inv m) as Hnn.
    destruct (Z.gcd_divide_l inv m) as [ci Hci].
    destruct (Z.gcd_divide_r inv m) as [cm Hcm].
    assert (Hd : (Z.gcd inv m | 1)).
    { exists (n * ci - k * cm). nia. }
    apply Z.divide_1_r_nonneg in Hd; assumption. }
  rewrite Hg in *. cbn [Z.eqb Pos.eqb]. do 3 f_equal.
  apply cong_iff_divide; [lia|].
  rewrite (Z.mod_small inv m Hr) in Hbz.
  exists (- (u * k) - n * v).
  pose proof (f_equal (Z.mul u) Hk) as H1.
  pose proof (f_equal (Z.mul n) Hbz) as H2. nia.
Qed.

Lemma modInv_involutive_witness :
  0 < 8 /\ modInv 3 8 (start []) = Returns ((true, 3), start []) /\
  modInv 3 8 (start []) = Returns ((true, 3 mod 8), start []).
Proof.
  split; [lia|]. split; [reflexivity|].
  exact (modInv_involutive 3 8 3 (start []) (start []) ltac:(lia) eq_refl).
Defined.






(** X5. isSmooth depends on a and b only through their residues modulo m:
    adding multiples of m to either changes nothing (for m = 0 both calls
    raise ZeroDivisionError). *)
Theorem isSmooth_representative (a b j k m : Z) (w : world) :
  isSmooth (a + j * m) (b + k * m) m w = isSmooth a b m w.
Proof.
  unfold isSmooth, pymod, bind.
  destruct (Z.eqb_spec m 0) as [E|E]; [reflexivity|].
  unfold ret. do 4 f_equal.
  apply cong_iff_divide; [exact E|].
  exists (64 * j * ((a + j * m) ^ 2 + (a + j * m) * a + a ^ 2)
          + 432 * k * (2 * b + k * m)).
  ring.
Qed.

(* ===================================================================== *)
(** ** Points and the curve equation *)
(* ===================================================================== *)

(** The curve equation only sees residues, and does not see the sign
    of [y]. *)
Lemma curve_residue_cong (m a b x y x' y' : Z) :
  (m | x' - x) -> (m | y' - y) ->
  (m | curve_residue a b x y) -> (m | curve_residue a b x' y').
Proof.
  intros [kx Hx] [ky Hy] [k Hk]. unfold curve_residue in *.
  exists (k + ky * (y' + y) - kx * (x' ^ 2 + x' * x + x ^ 2 + a)).
  replace (y' ^ 2 - (x' ^ 3 + a * x' + b))
    with (y ^ 2 - (x ^ 3 + a * x + b)
          + (y' - y) * (y' + y)
          - (x' - x) * (x' ^ 2 + x' * x + x ^ 2 + a)) by ring.
  rewrite Hk, Hx, Hy. ring.
Qed.

Lemma curve_residue_opp (a b x y : Z) :
  curve_residue a b x (- y) = curve_residue a b x y.
Proof. unfold curve_residue. ring. Qed.

(** What [Point(x, y, m)] builds over a positive modulus. *)
Lemma new_run (x y m : Z) (w : world) :
  0 < m ->
  Point.new x y m w =
  Returns (Point.mk (next_oid w) (Affine (x mod m) (y mod m)) m, bump w).
Proof.
  intros Hm. unfold Point.new, Point.alloc, pymod, bind, ret.
  destruct (Z.eqb_spec m 0) as [E|_]; [lia | reflexivity].
Qed.

Lemma new_reduced (x y m : Z) :
  0 < m -> forall o, reduced (Point.mk o (Affine (x mod m) (y mod m)) m).
Proof.
  intros Hm o. unfold reduced. cbn.
  split; apply Z.mod_pos_bound; exact Hm.
Qed.

Lemma new_on_curve (E : EC.t) (x y : Z) (o : nat) :
  0 < EC.modulus E ->
  (EC.modulus E | curve_residue (EC.a E) (EC.b E) x y) ->
  on_curve E (Point.mk o (Affine (x mod EC.modulus E) (y mod EC.modulus E))
                       (EC.modulus E)).
Proof.
  intros Hm H. unfold on_curve. cbn. split; [reflexivity|].
  apply (curve_residue_cong _ _ _ x y); [| |exact H];
    apply mod_sub_divide; lia.
Qed.

(** The coordinates of [P.inverse] for a reduced affine [P]. *)
Lemma inverse_run (P : Point.t) (x y : Z) (w : world) :
  0 < Point.modulus P -> reduced P -> Point.xy P = Affine x y ->
  Point.inverse P w =
  Returns (Point.mk (next_oid w) (Affine x ((- y) mod Point.modulus P))
                    (Point.modulus P), bump w).
Proof.
  intros Hm Hr HP. unfold reduced in Hr. rewrite HP in Hr.
  unfold Point.inverse. rewrite HP, new_run by exact Hm.
  do 3 f_equal. f_equal.
  - apply Z.mod_small. tauto.
  - destruct (Z.eqb_spec y 0) as [->|Hy]; cbn [negb]; [reflexivity|].
    apply cong_iff_divide; [lia|]. exists 1. ring.
Qed.

(** X6. P.inverse.inverse has the coordinates and modulus of P, for every
    point P with principal-value coordinates over a positive modulus; the
    inverse keeps x and holds (-y) mod m. Each call builds a new object. *)
Theorem inverse_involutive (P : Point.t) (x y : Z) (w : world) :
  0 < Point.modulus P -> reduced P -> Point.xy P = Affine x y ->
  exists Q R,
    Point.inverse P w = Returns (Q, bump w) /\
    Point.inverse Q (bump w) = Returns (R, bump (bump w)) /\
    Point.xy Q = Affine x ((- y) mod Point.modulus P) /\
    Point.xy R = Point.xy P /\
    Point.modulus Q = Point.modulus P /\ Point.modulus R = Point.modulus P /\
    Point.oid Q = next_oid w /\ Point.oid R = S (next_oid w).
Proof.
  intros Hm Hr HP.
  pose proof (inverse_run P x y w Hm Hr HP) as HQ.
  set (Q := Point.mk _ _ _) in HQ.
  assert (HrQ : reduced Q)
    by (unfold Q, reduced; cbn; unfold reduced in Hr; rewrite HP in Hr;
        split; [tauto | apply Z.mod_pos_bound; exact Hm]).
  pose proof (inverse_run Q x ((- y) mod Point.modulus P) (bump w)
                ltac:(exact Hm) HrQ eq_refl) as HR.
  cbn [Point.modulus Q] in HR.
  eexists. eexists. split; [exact HQ|]. split; [exact HR|].
  cbn. repeat split. rewrite HP. f_equal.
  unfold reduced in Hr. rewrite HP in Hr.
  transitivity (y mod Point.modulus P); [|apply Z.mod_small; tauto].
  apply cong_iff_divide; [lia|].
  destruct (mod_sub_divide (Point.modulus P) (- y) ltac:(lia)) as [k Hk].
  exists (- k). lia.
Qed.

Lemma inverse_involutive_witness :
  let P := Point.mk 1 (Affine 0 1) 7 in
  0 < Point.modulus P /\ reduced P /\
  exists Q R,
    Point.inverse P (start []) = Returns (Q, bump (start [])) /\
    Point.xy Q = Affine 0 6 /\ Point.xy R = Affine 0 1.
Proof.
  intros P.
  assert (Hm : 0 < Point.modulus P) by (cbn; lia).
  assert (Hr : reduced P) by (unfold reduced; cbn; lia).
  split; [exact Hm|]. split; [exact Hr|].
  destruct (inverse_involutive P 0 1 (start []) Hm Hr eq_refl)
    as (Q & R & HQ & _ & HxQ & HxR & _).
  exists Q, R. repeat split; assumption.
Defined.

Lemma identity_curve_point (E : EC.t) : curve_point E Point.identity.
Proof. split; exact I. Qed.

(** The inverse of a point of the curve is a point of the curve, with
    principal-value coordinates again. *)
Lemma inverse_curve_point (E : EC.t) (P Q : Point.t) (w w' : world) :
  0 < EC.modulus E -> curve_point E P ->
  Point.inverse P w = Returns (Q, w') ->
  curve_point E Q /\ Point.ID Q = Point.ID P.
Proof.
  intros Hm [Hon Hred]. unfold on_curve in Hon.
  destruct (Point.xy P) as [x y| |] eqn:HP; [| |contradiction].
  - destruct Hon as [HmP Hres].
    rewrite (inverse_run P x y w ltac:(lia) Hred HP).
    intros [= <- _]. rewrite HmP. split; [split|].
    + unfold on_curve. cbn. split; [reflexivity|].
      apply (curve_residue_cong _ _ _ x (- y)).
      * exists 0. ring.
      * apply mod_sub_divide. lia.
      * rewrite curve_residue_opp. exact Hres.
    + unfold reduced. cbn. unfold reduced in Hred. rewrite HP, HmP in Hred.
      split; [tauto | apply Z.mod_pos_bound; exact Hm].
    + unfold Point.ID. rewrite HP. reflexivity.
  - unfold Point.inverse. rewrite HP. intros [= <- _].
    split; [split; exact I|]. unfold Point.ID. rewrite HP. reflexivity.
Qed.

(** X7. The inverse of a point of the curve is a point of the curve, with
    principal-value coordinates again. *)
Theorem inverse_on_curve (E : EC.t) (P Q : Point.t) (w w' : world) :
  0 < EC.modulus E -> curve_point E P ->
  Point.inverse P w = Returns (Q, w') ->
  curve_point E Q /\ Point.ID Q = Point.ID P.
Proof. exact (inverse_curve_point E P Q w w'). Qed.

Lemma inverse_on_curve_witness :
  let E := EC.mk 1 1 7 in
  let P := Point.mk 1 (Affine 0 1) 7 in
  0 < EC.modulus E /\ curve_point E P /\
  curve_point E (Point.mk 1 (Affine 0 6) 7).
Proof.
  intros E P.
  assert (Hc : curve_point E P).
  { split; [|unfold reduced; cbn; lia].
    unfold on_curve. cbn. split; [reflexivity|]. exists 0. reflexivity. }
  split; [cbn; lia|]. split; [exact Hc|].
  exact (proj1 (inverse_on_curve E P _ (start []) _ ltac:(cbn; lia) Hc eq_refl)).
Defined.

(* ===================================================================== *)
(** ** The slopes *)
(* ===================================================================== *)

Lemma pymod_returns (a m r : Z) (w w' : world) :
  pymod a m w = Returns (r, w') -> m <> 0 /\ r = a mod m /\ w' = w.
Proof.
  unfold pymod. destruct (Z.eqb_spec m 0) as [E|E]; [discriminate|].
  intros [= <- <-]. auto.
Qed.

Lemma modInv_false (n m g : Z) (w w' : world) :
  0 < m ->
  modInv n m w = Returns ((false, g), w') ->
  w' = w /\ g = Z.gcd n m /\ g <> 1.
Proof.
  intros Hm.
  destruct (modInv_run n m w Hm) as (u & v & _ & ->).
  destruct (Z.eqb_spec (Z.gcd n m) 1) as [Hg|Hg]; [discriminate|].
  intros [= <- <-]. auto.
Qed.

(** modularSlope(P, Q) over a positive modulus m: on success the slope
    s is a principal value with s * (Q.x - P.x) = Q.y - P.y modulo m, and
    Q.x - P.x is invertible modulo m; on failure the second component is
    gcd(Q.x - P.x, m), which is not 1. *)
Lemma modularSlope_facts (P Q : Point.t) (px py qx qy : Z)
        (e : bool) (z : Z) (w w' : world) :
  0 < Point.modulus P ->
  Point.xy P = Affine px py -> Point.xy Q = Affine qx qy ->
  modularSlope P Q w = Returns ((e, z), w') ->
  w' = w /\
  if e then
    0 <= z < Point.modulus P /\
    (Point.modulus P | z * (qx - px) - (qy - py)) /\
    exists i, (Point.modulus P | (qx - px) * i - 1)
  else z = Z.gcd (qx - px) (Point.modulus P) /\ z <> 1.
Proof.
  intros Hm HP HQ. unfold modularSlope. rewrite HP, HQ. intros H.
  bind_inv H. destruct a as [e0 i]. destruct e0.
  - destruct (modInv_true _ _ _ _ _ Hm Hrun) as (-> & _ & Hinv).
    unfold pymod, bind, ret in H.
    destruct (Z.eqb_spec (Point.modulus P) 0) as [E0|_]; [lia|].
    injection H as <- <- <-. split; [reflexivity|].
    split; [apply Z.mod_pos_bound; exact Hm|]. split; [|eauto].
    destruct Hinv as [k Hk].
    destruct (mod_sub_divide (Point.modulus P) ((qy - py) * i) ltac:(lia))
      as [c Hc].
    exists (c * (qx - px) + (qy - py) * k).
    replace (((qy - py) * i) mod Point.modulus P * (qx - px) - (qy - py))
      with ((((qy - py) * i) mod Point.modulus P - (qy - py) * i) * (qx - px)
            + (qy - py) * ((qx - px) * i - 1)) by ring.
    rewrite Hc, Hk. ring.
  - destruct (modInv_false _ _ _ _ _ Hm Hrun) as (-> & Hg & Hne).
    injection H as <- <- <-. auto.
Qed.

(** X8. modularSlope(P, Q) over a positive modulus m: on success the slope
    s is a principal value with s * (Q.x - P.x) = Q.y - P.y modulo m, and
    Q.x - P.x is invertible modulo m; on failure the second component is
    gcd(Q.x - P.x, m), which is not 1. *)
Theorem modularSlope_correct (P Q : Point.t) (px py qx qy : Z)
        (e : bool) (z : Z) (w w' : world) :
  0 < Point.modulus P ->
  Point.xy P = Affine px py -> Point.xy Q = Affine qx qy ->
  modularSlope P Q w = Returns ((e, z), w') ->
  w' = w /\
  if e then
    0 <= z < Point.modulus P /\
    (Point.modulus P | z * (qx - px) - (qy - py)) /\
    exists i, (Point.modulus P | (qx - px) * i - 1)
  else z = Z.gcd (qx - px) (Point.modulus P) /\ z <> 1.
Proof. exact (modularSlope_facts P Q px py qx qy e z w w'). Qed.

Lemma modularSlope_correct_witness :
  let P := Point.mk 1 (Affine 2 3) 5 in
  let Q := Point.mk 2 (Affine 3 1) 5 in
  0 < Point.modulus P /\
  modularSlope P Q (start []) = Returns ((true, 3), start []) /\
  (0 <= 3 < 5 /\ (5 | 3 * (3 - 2) - (1 - 3)) /\
   exists i, (5 | (3 - 2) * i - 1)).
Proof.
  intros P Q. split; [cbn; lia|]. split; [reflexivity|].
  exact (proj2 (modularSlope_correct P Q 2 3 3 1 true 3 (start []) (start [])
                  ltac:(cbn; lia) eq_refl eq_refl eq_refl)).
Defined.

(** tangent(P) on a curve over a positive modulus m: on success the
    slope s is a principal value with s * 2y = 3x^2 + a modulo m; on
    failure the second component is gcd(2y, m), which is not 1. *)
Lemma tangent_facts (E : EC.t) (P : Point.t) (x y : Z)
        (e : bool) (z : Z) (w w' : world) :
  0 < EC.modulus E ->
  Point.xy P = Affine x y ->
  EC.tangent E P w = Returns ((e, z), w') ->
  w' = w /\
  if e then
    0 <= z < EC.modulus E /\
    (EC.modulus E | z * (2 * y) - (3 * x ^ 2 + EC.a E))
  else z = Z.gcd (2 * y) (EC.modulus E) /\ z <> 1.
Proof.
  intros Hm HP. unfold EC.tangent. rewrite HP. intros H.
  bind_inv H. apply pymod_returns in Hrun. destruct Hrun as (_ & Etm & ->).
  rename a into tm.
  bind_inv H. destruct a as [e0 i]. destruct e0.
  - destruct (modInv_true _ _ _ _ _ Hm Hrun) as (-> & _ & [k Hk]).
    bind_inv H. apply pymod_returns in Hrun0.
    destruct Hrun0 as (_ & Es & ->). rename a into s.
    injection H as <- <- <-. split; [reflexivity|].
    split; [rewrite Es; apply Z.mod_pos_bound; exact Hm|].
    set (m := EC.modulus E) in *.
    remember (3 * x ^ 2 + EC.a E) as t eqn:Et.
    destruct (mod_sub_divide m t ltac:(lia)) as [c Hc].
    destruct (mod_sub_divide m (tm * i) ltac:(lia)) as [c' Hc'].
    rewrite <- Etm in Hc. rewrite <- Es in Hc'.
    exists (c' * (2 * y) + tm * k + c).
    assert (Hs : s = c' * m + tm * i) by lia.
    assert (Ht : t = tm - c * m) by lia.
    rewrite Hs, Ht.
    replace ((c' * m + tm * i) * (2 * y) - (tm - c * m))
      with (c' * m * (2 * y) + tm * (2 * y * i - 1) + c * m) by ring.
    rewrite Hk. ring.
  - destruct (modInv_false _ _ _ _ _ Hm Hrun) as (-> & Hg & Hne).
    injection H as <- <- <-. auto.
Qed.

(** X9. tangent(P) on a curve over a positive modulus m: on success the
    slope s is a principal value with s * 2y = 3x^2 + a modulo m; on
    failure the second component is gcd(2y, m), which is not 1. *)
Theorem tangent_correct (E : EC.t) (P : Point.t) (x y : Z)
        (e : bool) (z : Z) (w w' : world) :
  0 < EC.modulus E ->
  Point.xy P = Affine x y ->
  EC.tangent E P w = Returns ((e, z), w') ->
  w' = w /\
  if e then
    0 <= z < EC.modulus E /\
    (EC.modulus E | z * (2 * y) - (3 * x ^ 2 + EC.a E))
  else z = Z.gcd (2 * y) (EC.modulus E) /\ z <> 1.
Proof. exact (tangent_facts E P x y e z w w'). Qed.

Lemma tangent_correct_witness :
  let E := EC.mk 1 1 7 in
  let P := Point.mk 1 (Affine 0 1) 7 in
  0 < EC.modulus E /\
  EC.tangent E P (start []) = Returns ((true, 4), start []) /\
  (0 <= 4 < 7 /\ (7 | 4 * (2 * 1) - (3 * 0 ^ 2 + 1))).
Proof.
  intros E P. split; [cbn; lia|]. split; [reflexivity|].
  exact (proj2 (tangent_correct E P 0 1 true 4 (start []) (start [])
                  ltac:(cbn; lia) eq_refl eq_refl)).
Defined.

(* ===================================================================== *)
(** ** The group law stays on the curve *)
(* ===================================================================== *)

(** The tangent construction: from a point of the curve and a slope with
    [s * 2y = 3x^2 + a], the formulas of [__add_sumExists] give a point of
    the curve. *)
Lemma tangent_law (m a b x y s : Z) :
  (m | curve_residue a b x y) ->
  (m | s * (2 * y) - (3 * x ^ 2 + a)) ->
  (m | curve_residue a b (s ^ 2 - x - x) (s * (x - (s ^ 2 - x - x)) - y)).
Proof.
  intros H1 H2.
  replace (curve_residue a b (s ^ 2 - x - x) (s * (x - (s ^ 2 - x - x)) - y))
    with (curve_residue a b x y
          + (s * (2 * y) - (3 * x ^ 2 + a)) * (s ^ 2 - x - x - x))
    by (unfold curve_residue; ring).
  apply Z.divide_add_r; [exact H1|].
  apply Z.divide_mul_l. exact H2.
Qed.

(** The secant construction, for two points of the curve whose [x]
    differ by a unit modulo [m]. *)
Lemma secant_law (m a b x1 y1 x2 y2 s i : Z) :
  (m | curve_residue a b x1 y1) ->
  (m | curve_residue a b x2 y2) ->
  (m | s * (x2 - x1) - (y2 - y1)) ->
  (m | (x2 - x1) * i - 1) ->
  (m | curve_residue a b (s ^ 2 - x1 - x2)
                     (s * (x1 - (s ^ 2 - x1 - x2)) - y1)).
Proof.
  intros H1 H2 H3 Hi.
  set (d := x2 - x1) in *.
  set (D := x2 ^ 2 + x1 * x2 + x1 ^ 2 + a - s ^ 2 * d - 2 * s * y1).
  assert (HdD : (m | d * D)).
  { replace (d * D)
      with (curve_residue a b x1 y1 - curve_residue a b x2 y2
            - (s * d - (y2 - y1)) * (s * d + y1 + y2))
      by (unfold D, d, curve_residue; ring).
    apply Z.divide_sub_r; [apply Z.divide_sub_r; assumption|].
    apply Z.divide_mul_l. exact H3. }
  assert (HD : (m | D)).
  { replace D with (i * (d * D) - D * (d * i - 1)) by ring.
    apply Z.divide_sub_r; [apply Z.divide_mul_r; exact HdD|].
    apply Z.divide_mul_r. exact Hi. }
  replace (curve_residue a b (s ^ 2 - x1 - x2)
             (s * (x1 - (s ^ 2 - x1 - x2)) - y1))
    with (curve_residue a b x1 y1 - (s ^ 2 - x1 - x2 - x1) * D)
    by (unfold D, d, curve_residue; ring).
  apply Z.divide_sub_r; [exact H1|].
  apply Z.divide_mul_r. exact HD.
Qed.

Lemma add_sumExists_run (E : EC.t) (P Q : Point.t) (px py qx qy s : Z)
      (w : world) :
  0 < EC.modulus E ->
  Point.xy P = Affine px py -> Point.xy Q = Affine qx qy ->
  EC.add_sumExists E P Q s w =
  Returns (Point.mk (next_oid w)
             (Affine ((s ^ 2 - px - qx) mod EC.modulus E)
                     ((s * (px - (s ^ 2 - px - qx)) - py) mod EC.modulus E))
             (EC.modulus E), bump w).
Proof.
  intros Hm HP HQ. unfold EC.add_sumExists. rewrite HP, HQ.
  apply new_run. exact Hm.
Qed.

Lemma tangent_returns_affine (E : EC.t) (P : Point.t) (w : world)
      (r : (bool * Z) * world) :
  EC.tangent E P w = Returns r -> exists x y, Point.xy P = Affine x y.
Proof.
  unfold EC.tangent. destruct (Point.xy P) as [x y| |]; [eauto| |];
    unfold to_float, nonfinite_mod, to_float, bind, ret, raise, loop_forever;
    repeat match goal with
           | |- context [if ?c then _ else _] => destruct c
           end; discriminate.
Qed.

Lemma modularSlope_returns_affine (P Q : Point.t) (w : world)
      (r : (bool * Z) * world) :
  modularSlope P Q w = Returns r ->
  (exists x y, Point.xy P = Affine x y) /\
  (exists x y, Point.xy Q = Affine x y).
Proof.
  unfold modularSlope.
  destruct (Point.xy P) as [px py| |]; destruct (Point.xy Q) as [qx qy| |];
    try (intros H; exfalso; revert H; apply float_path_no_return).
  intros _. split; eauto.
Qed.

(** double(P) of a point of the curve, over a positive modulus: a
    successful result is a point of the curve with principal-value
    coordinates. *)
Lemma double_curve_point (E : EC.t) (P R : Point.t) (w w' : world) :
  0 < EC.modulus E -> curve_point E P ->
  EC.double E P w = Returns ((true, VPoint R), w') ->
  curve_point E R.
Proof.
  intros Hm HcP. unfold EC.double. intros H.
  bind_inv H. destruct (Point.eqb P a).
  - injection H as <- _. apply identity_curve_point.
  - bind_inv H. destruct a0 as [e s].
    destruct (tangent_returns_affine _ _ _ _ Hrun0) as (x & y & HP).
    destruct (tangent_facts E P x y e s _ _ Hm HP Hrun0) as [-> Hs].
    destruct e; [|discriminate].
    destruct Hs as (_ & Hs).
    bind_inv H.
    rewrite (add_sumExists_run E P P x y x y s _ Hm HP HP) in Hrun1.
    injection Hrun1 as <- _. injection H as <- _.
    destruct HcP as [Hon _]. unfold on_curve in Hon. rewrite HP in Hon.
    split; [|apply new_reduced; exact Hm].
    apply new_on_curve; [exact Hm|].
    apply tangent_law; tauto.
Qed.

(** X10. double(P) of a point of the curve, over a positive modulus: a
    successful result is a point of the curve with principal-value
    coordinates. *)
Theorem double_on_curve (E : EC.t) (P R : Point.t) (w w' : world) :
  0 < EC.modulus E -> curve_point E P ->
  EC.double E P w = Returns ((true, VPoint R), w') ->
  curve_point E R.
Proof. exact (double_curve_point E P R w w'). Qed.

Lemma double_on_curve_witness :
  let E := EC.mk 1 1 7 in
  let P := Point.mk 1 (Affine 0 1) 7 in
  let w := mkWorld 2 (fun _ => 0) 0 in
  0 < EC.modulus E /\ curve_point E P /\
  curve_point E (Point.mk 3 (Affine 2 5) 7).
Proof.
  intros E P w.
  assert (Hc : curve_point E P).
  { split; [|unfold reduced; cbn; lia].
    unfold on_curve. cbn. split; [reflexivity|]. exists 0. reflexivity. }
  split; [cbn; lia|]. split; [exact Hc|].
  exact (double_on_curve E P _ w _ ltac:(cbn; lia) Hc eq_refl).
Defined.

(** [double] and [add] return [(True, point)] or [(False, int)]. *)
Lemma double_shape (E : EC.t) (P : Point.t) (w w' : world)
      (e : bool) (v : value) :
  EC.double E P w = Returns ((e, v), w') ->
  (e = true /\ exists R, v = VPoint R) \/ (e = false /\ exists g, v = VInt g).
Proof.
  unfold EC.double. intros H.
  bind_inv H. destruct (Point.eqb P a).
  - injection H as <- <- _. left. eauto.
  - bind_inv H. destruct a0 as [e0 s]. destruct e0.
    + bind_inv H. injection H as <- <- _. left. eauto.
    + injection H as <- <- _. right. eauto.
Qed.

Lemma add_shape (E : EC.t) (P Q : Point.t) (w w' : world)
      (e : bool) (v : value) :
  EC.add E P Q w = Returns ((e, v), w') ->
  (e = true /\ exists R, v = VPoint R) \/ (e = false /\ exists g, v = VInt g).
Proof.
  unfold EC.add. destruct (Point.eqb P Q); [apply double_shape|].
  intros H. bind_inv H. destruct a.
  - bind_inv H. injection H as <- <- _. left. eauto.
  - bind_inv H. destruct a as [e0 s]. destruct e0.
    + bind_inv H. injection H as <- <- _. left. eauto.
    + injection H as <- <- _. right. eauto.
Qed.

Lemma resCurveInd_curve_point (E : EC.t) (P Q : Point.t) (k : Z)
      (w w' : world) (r : Point.t) :
  0 < EC.modulus E -> curve_point E P -> curve_point E Q ->
  resCurveInd P Q k w = Returns (r, w') -> curve_point E r.
Proof.
  intros Hm HP HQ. unfold resCurveInd. intros H.
  bind_inv H.
  assert (Ha : match a with Some p => curve_point E p | None => True end).
  { destruct (Point.ID Q && (k =? 1)).
    - injection Hrun as <- _. exact HP.
    - bind_inv Hrun.
      destruct (Point.eqb P a0 || (k =? 0)).
      + injection Hrun as <- _. apply identity_curve_point.
      + destruct (k =? -1).
        * bind_inv Hrun. injection Hrun as <- _.
          exact (proj1 (inverse_curve_point E P _ _ _ Hm HP Hrun1)).
        * injection Hrun as <- _. exact I. }
  destruct (Point.ID P).
  - injection H as <- _. exact HQ.
  - destruct a as [p|]; [|discriminate].
    injection H as <- _. exact Ha.
Qed.

(** add(P, Q) of two points of the curve, over a positive modulus:
    a successful result is a point of the curve with principal-value
    coordinates, whichever of the three branches produced it. *)
Lemma add_curve_point (E : EC.t) (P Q R : Point.t) (w w' : world) :
  0 < EC.modulus E -> curve_point E P -> curve_point E Q ->
  EC.add E P Q w = Returns ((true, VPoint R), w') ->
  curve_point E R.
Proof.
  intros Hm HcP HcQ. unfold EC.add.
  destruct (Point.eqb P Q); [apply double_curve_point; assumption|].
  intros H. bind_inv H. destruct a.
  - bind_inv H. injection H as <- _.
    exact (resCurveInd_curve_point E P Q 1 _ _ _ Hm HcP HcQ Hrun0).
  - bind_inv H. destruct a as [e s].
    destruct (modularSlope_returns_affine _ _ _ _ Hrun0)
      as [(px & py & HP) (qx & qy & HQ)].
    destruct HcP as [HonP _]. destruct HcQ as [HonQ _].
    unfold on_curve in HonP, HonQ. rewrite HP in HonP. rewrite HQ in HonQ.
    destruct HonP as [HmP HrP]. destruct HonQ as [_ HrQ].
    destruct (modularSlope_facts P Q px py qx qy e s _ _
                ltac:(lia) HP HQ Hrun0) as [-> Hs].
    destruct e; [|discriminate].
    rewrite HmP in Hs. destruct Hs as (_ & Hs & i & Hi).
    bind_inv H.
    rewrite (add_sumExists_run E P Q px py qx qy s _ Hm HP HQ) in Hrun1.
    injection Hrun1 as <- _. injection H as <- _.
    split; [|apply new_reduced; exact Hm].
    apply new_on_curve; [exact Hm|].
    apply (secant_law _ _ _ px py qx qy s i); assumption.
Qed.

(** X11. add(P, Q) of two points of the curve, over a positive modulus:
    a successful result is a point of the curve with principal-value
    coordinates, whichever of the three branches produced it. *)
Theorem add_on_curve (E : EC.t) (P Q R : Point.t) (w w' : world) :
  0 < EC.modulus E -> curve_point E P -> curve_point E Q ->
  EC.add E P Q w = Returns ((true, VPoint R), w') ->
  curve_point E R.
Proof. exact (add_curve_point E P Q R w w'). Qed.

Lemma add_on_curve_witness :
  let E := EC.mk 1 1 7 in
  let P := Point.mk 1 (Affine 0 1) 7 in
  let Q := Point.mk 2 (Affine 2 5) 7 in
  let w := mkWorld 3 (fun _ => 0) 0 in
  0 < EC.modulus E /\ curve_point E P /\ curve_point E Q /\
  curve_point E (Point.mk 4 (Affine 2 2) 7).
Proof.
  intros E P Q w.
  assert (HP : curve_point E P).
  { split; [|unfold reduced; cbn; lia].
    unfold on_curve. cbn. split; [reflexivity|]. exists 0. reflexivity. }
  assert (HQ : curve_point E Q).
  { split; [|unfold reduced; cbn; lia].
    unfold on_curve. cbn. split; [reflexivity|]. exists 2. reflexivity. }
  split; [cbn; lia|]. split; [exact HP|]. split; [exact HQ|].
  exact (add_on_curve E P Q _ w _ ltac:(cbn; lia) HP HQ eq_refl).
Defined.

Lemma mult_loop_on_curve (E : EC.t) (bits : list bool) :
  0 < EC.modulus E ->
  forall (e : bool) (res P : value) (w w' : world) (r : bool * value),
    curve_value E res ->
    (e = true -> exists p, P = VPoint p /\ curve_point E p) ->
    EC.mult_loop E bits e res P w = Returns (r, w') ->
    curve_value E (snd r).
Proof.
  intros Hm. induction bits as [|bit rest IH]; intros e res P w w' r Hres HP.
  - cbn. intros [= <- _]. exact Hres.
  - cbn [EC.mult_loop]. destruct e; cbn [negb].
    2:{ intros [= <- _]. exact Hres. }
    destruct (HP eq_refl) as (p & -> & Hp).
    assert (Hdbl : forall w1 w2 e2 P2,
               EC.double E p w1 = Returns ((e2, P2), w2) ->
               e2 = true -> exists p2, P2 = VPoint p2 /\ curve_point E p2).
    { intros w1 w2 e2 P2 Hd ->.
      destruct (double_shape _ _ _ _ _ _ Hd) as [[_ [R ->]]|[Hf _]];
        [|discriminate].
      exists R. split; [reflexivity|].
      exact (double_curve_point E p R _ _ Hm Hp Hd). }
    destruct bit.
    + intros H. bind_inv H. injection Hrun as <- <-.
      bind_inv H. destruct res as [q|g]; [|discriminate].
      injection Hrun as <- <-.
      bind_inv H. destruct a as [e1 r1].
      destruct (add_shape _ _ _ _ _ _ _ Hrun) as [[-> [R ->]]|[-> [g ->]]];
        cbn [negb] in H.
      * pose proof (add_curve_point E p q R _ _ Hm Hp Hres Hrun) as HR.
        bind_inv H. destruct a as [e2 P2].
        exact (IH e2 (VPoint R) P2 _ _ _ HR (Hdbl _ _ _ _ Hrun0) H).
      * injection H as <- _. exact I.
    + intros H. bind_inv H. injection Hrun as <- <-.
      bind_inv H. destruct a as [e2 P2].
      exact (IH e2 res P2 _ _ _ Hres (Hdbl _ _ _ _ Hrun) H).
Qed.

(** X12. mult(P, k) of a point of the curve, over a positive modulus:
    whenever the second component of the result is a point (with either
    value of the flag), it is a point of the curve with principal-value
    coordinates. *)
Theorem mult_on_curve (E : EC.t) (P R : Point.t) (k : Z) (e : bool)
        (w w' : world) :
  0 < EC.modulus E -> curve_point E P ->
  EC.mult E P k w = Returns ((e, VPoint R), w') ->
  curve_point E R.
Proof.
  intros Hm HP. unfold EC.mult. intros H.
  bind_inv H. destruct a as [P' k'].
  assert (HP' : curve_point E P').
  { destruct (k <? 0).
    - bind_inv Hrun. injection Hrun as <- _ _.
      exact (proj1 (inverse_curve_point E P _ _ _ Hm HP Hrun0)).
    - injection Hrun as <- _ _. exact HP. }
  bind_inv H. destruct a.
  - bind_inv H. injection H as _ <- _.
    exact (resCurveInd_curve_point E P' Point.identity k' _ _ _ Hm HP'
             (identity_curve_point E) Hrun1).
  - refine (mult_loop_on_curve E _ Hm true (VPoint Point.identity) (VPoint P')
              _ _ (e, VPoint R) (identity_curve_point E) _ H).
    intros _. eauto.
Qed.

Lemma mult_on_curve_witness :
  let E := EC.mk 1 1 7 in
  let P := Point.mk 1 (Affine 0 1) 7 in
  let w := mkWorld 2 (fun _ => 0) 0 in
  0 < EC.modulus E /\ curve_point E P /\
  observe (EC.mult E P 3 w) = Returns (true, VPoint (Point.mk 5 (Affine 2 2) 7)) /\
  curve_point E (Point.mk 5 (Affine 2 2) 7).
Proof.
  intros E P w.
  assert (HP : curve_point E P).
  { split; [|unfold reduced; cbn; lia].
    unfold on_curve. cbn. split; [reflexivity|]. exists 0. reflexivity. }
  split; [cbn; lia|]. split; [exact HP|]. split; [vm_compute; reflexivity|].
  refine (mult_on_curve E P _ 3 true w
            (mkWorld 8 (fun _ => 0) 0) ltac:(cbn; lia) HP _).
  vm_compute. reflexivity.
Defined.

(* ===================================================================== *)
(** ** Obstructions are divisors *)
(* ===================================================================== *)



Lemma mult_loop_flag (E : EC.t) (bits : list bool) :
  forall (e : bool) (res P : value) (w w' : world) (e' : bool) (v : value),
    (e = true -> exists q, res = VPoint q) ->
    EC.mult_loop E bits e res P w = Returns ((e', v), w') ->
    e' = true -> exists q, v = VPoint q.
Proof.
  induction bits as [|bit rest IH]; intros e res P w w' e' v Hres.
  - cbn. intros [= <- <- _]. exact Hres.
  - cbn [EC.mult_loop]. destruct e; cbn [negb].
    2:{ intros [= <- <- _]. exact Hres. }
    destruct bit.
    + intros H. bind_inv H. bind_inv H. bind_inv H. destruct a1 as [e1 r1].
      destruct (add_shape _ _ _ _ _ _ _ Hrun1) as [[-> [R ->]]|[-> [g ->]]];
        cbn [negb] in H.
      * bind_inv H. destruct a1 as [e2 P2].
        refine (IH e2 (VPoint R) P2 _ _ _ _ _ H). eauto.
      * injection H as <- _ _. discriminate.
    + intros H. bind_inv H. bind_inv H. destruct a0 as [e2 P2].
      exact (IH e2 res P2 _ _ _ _ (fun _ => Hres eq_refl) H).
Qed.

(** X14. mult(P, k) over a modulus N > 1: when the flag is true the result
    is a point, and whenever the result is an int g the flag is false and
    g is a divisor of N with 1 < g <= N. *)
Theorem mult_result (E : EC.t) (P : Point.t) (k : Z) (w w' : world)
        (e : bool) (v : value) :
  1 < EC.modulus E -> point_over (EC.modulus E) P ->
  EC.mult E P k w = Returns ((e, v), w') ->
  (e = true -> exists R, v = VPoint R) /\
  (forall g, v = VInt g ->
             e = false /\ 1 < g <= EC.modulus E /\ (g | EC.modulus E)).
Proof.
  intros HN HP H.
  pose proof (mult_over _ HN E P k _ _ _ eq_refl HP H) as Hv. cbn [snd] in Hv.
  assert (Hflag : e = true -> exists R, v = VPoint R).
  { revert H. unfold EC.mult. intros H.
    bind_inv H. destruct a as [P' k']. bind_inv H. destruct a.
    - bind_inv H. injection H as <- <- _. eauto.
    - refine (mult_loop_flag E _ true _ _ _ _ _ _ _ H). eauto. }
  split; [exact Hflag|].
  intros g ->. destruct Hv as [Hr Hd]. split; [|tauto].
  destruct e; [|reflexivity].
  destruct (Hflag eq_refl) as [R HR]. discriminate.
Qed.

Lemma mult_result_witness :
  let E := EC.mk 2 24 35 in
  let P := Point.mk 1 (Affine 2 1) 35 in
  let w := mkWorld 2 (fun _ => 0) 0 in
  1 < EC.modulus E /\ point_over (EC.modulus E) P /\
  observe (EC.mult E P 24 w) = Returns (false, VInt 7) /\
  (false = false /\ 1 < 7 <= 35 /\ (7 | 35)).
Proof.
  intros E P w.
  assert (HP : point_over (EC.modulus E) P) by (right; cbn; eauto).
  split; [cbn; lia|]. split; [exact HP|]. split; [vm_compute; reflexivity|].
  refine (proj2 (mult_result E P 24 w (mkWorld 11 (fun _ => 0) 0)
                   false (VInt 7) ltac:(cbn; lia) HP _) 7 eq_refl).
  vm_compute. reflexivity.
Defined.

(* ===================================================================== *)
(** ** The search *)
(* ===================================================================== *)

(** X15. Whenever lenstraFactorial(N, ...) returns an int for N > 1, that
    int is N or a proper divisor of N; for a prime N it is N. *)
Theorem lenstraFactorial_int_result (N bound effortObs effortGen g : Z)
        (w w' : world) :
  1 < N ->
  lenstraFactorial N bound effortObs effortGen w = Returns (VInt g, w') ->
  (g = N \/ (1 < g < N /\ (g | N))) /\ (prime N -> g = N).
Proof.
  intros HN H.
  pose proof (lenstraFactorial_int N HN _ _ _ _ _ _ H) as Hg.
  split; [exact Hg|]. intros Hp.
  destruct Hg as [Hg|[Hr Hd]]; [exact Hg|].
  destruct Hp as [_ Hrel].
  destruct (Hrel g ltac:(lia)) as [_ _ Hone].
  assert (Hg1 : (g | 1)) by (apply Hone; [apply Z.divide_refl | exact Hd]).
  apply Z.divide_1_r_nonneg in Hg1; lia.
Qed.

Lemma lenstraFactorial_int_result_witness :
  1 < 35 /\
  lenstraFactorial 35 4 1 100 (start [2; 1; 2])
    = Returns (VInt 7, mkWorld 11 (fun i => nth i [2; 1; 2] 0) 3) /\
  (7 = 35 \/ (1 < 7 < 35 /\ (7 | 35))).
Proof.
  assert (Hrun : lenstraFactorial 35 4 1 100 (start [2; 1; 2])
                 = Returns (VInt 7, mkWorld 11 (fun i => nth i [2; 1; 2] 0) 3))
    by (vm_compute; reflexivity).
  split; [lia|]. split; [exact Hrun|].
  exact (proj1 (lenstraFactorial_int_result 35 4 1 100 7 _ _ ltac:(lia) Hrun)).
Defined.





(** X17. Over a positive modulus m, what generateCurvePoint returns is the
    point and curve of its first attempt with a nonzero discriminant: the
    coordinates are the draws s and t of that attempt, the curve is
    (a, (t^2 - s^3 - a s) mod m), all four are principal values, and the
    point is a point of that curve in the sense the group law preserves. *)
Theorem generateCurvePoint_first_accepted (m effort : Z) (w w' : world)
        (P : Point.t) (curve : EC.t) :
  0 < m ->
  generateCurvePoint m effort w = Returns ((P, curve), w') ->
  curve_point curve P /\
  exists i,
    (i < Z.to_nat effort)%nat /\
    Point.xy P = Affine (attempt_s m w i) (attempt_t m w i) /\
    curve = attempt_curve m w i /\
    attempt_disc m w i <> 0 /\
    (forall j, (j < i)%nat -> attempt_disc m w j = 0) /\
    0 <= EC.a curve < m /\ 0 <= EC.b curve < m.
Proof.
  intros Hm. unfold generateCurvePoint, bind.
  destruct (generate_loop_outcome m (Z.to_nat effort) w Hm)
    as [(i & w1 & Hi & Hd & Hbefore & ->)|(w1 & _ & ->)]; [|discriminate].
  intros [= <- <- _].
  assert (Hs : 0 <= attempt_s m w i < m) by (apply Z.mod_pos_bound; exact Hm).
  assert (Ht : 0 <= attempt_t m w i < m) by (apply Z.mod_pos_bound; exact Hm).
  split.
  - split; [|unfold reduced; cbn; lia].
    unfold on_curve, attempt_curve. cbn. split; [reflexivity|].
    unfold curve_residue, attempt_b.
    set (X := attempt_t m w i ^ 2 - attempt_s m w i ^ 3
              - attempt_a m w i * attempt_s m w i).
    destruct (mod_sub_divide m X ltac:(lia)) as [c Hc].
    exists (- c).
    replace (attempt_t m w i ^ 2
             - (attempt_s m w i ^ 3 + attempt_a m w i * attempt_s m w i
                + X mod m))
      with (- (X mod m - X)) by (unfold X; ring).
    rewrite Hc. ring.
  - exists i. unfold attempt_curve. cbn.
    repeat split; try assumption; try (apply Z.mod_pos_bound; exact Hm).
Qed.

Lemma generateCurvePoint_first_accepted_witness :
  let w := start [0; 0; 0; 2; 1; 2] in
  let P := Point.mk 1 (Affine 2 1) 35 in
  let E := EC.mk 2 24 35 in
  0 < 35 /\
  generateCurvePoint 35 100 w
    = Returns ((P, E), bump (tick (tick (tick (tick (tick (tick w))))))) /\
  curve_point E P.
Proof.
  intros w P E.
  assert (Hrun : generateCurvePoint 35 100 w
                 = Returns ((P, E),
                            bump (tick (tick (tick (tick (tick (tick w))))))))
    by (vm_compute; reflexivity).
  split; [lia|]. split; [exact Hrun|].
  exact (proj1 (generateCurvePoint_first_accepted 35 100 w _ P E
                  ltac:(lia) Hrun)).
Defined.

(** X18. Over the modulus 1 there is no curve to find: every discriminant
    is 0 mod 1, so generateCurvePoint(1, effort) raises its exception for
    every effort and every random source. *)
Theorem generateCurvePoint_modulus_one (effort : Z) (w : world) :
  generateCurvePoint 1 effort w = Raises CurveNotFound.
Proof.
  unfold generateCurvePoint, bind.
  destruct (generate_loop_outcome 1 (Z.to_nat effort) w ltac:(lia))
    as [(i & w1 & _ & Hd & _)|(w1 & _ & ->)]; [|reflexivity].
  exfalso. apply Hd. unfold attempt_disc. apply Z.mod_1_r.
Qed.

(** X19. An identity point is neutral for add on either side, for two
    distinct objects: add(P, Q) returns (True, P) when Q is an identity
    point and P is not, and (True, Q) when P is an identity point and Q is
    a point the constructor can build. *)
Theorem add_identity_neutral (E : EC.t) (P Q : Point.t) (w : world) :
  Point.eqb P Q = false ->
  (Point.ID Q = true -> Point.ID P = false ->
   EC.add E P Q w = Returns ((true, VPoint P), w)) /\
  (Point.ID P = true -> Point.constructible Q ->
   observe (EC.add E P Q w) = Returns (true, VPoint Q)).
Proof.
  intros Hne. unfold EC.add. rewrite Hne.
  unfold isCurveInd, resCurveInd. split.
  - intros HQ HP. rewrite HP, HQ. reflexivity.
  - intros HP HcQ. rewrite HP.
    destruct (Point.ID Q) eqn:HQ; [reflexivity|].
    destruct (inverse_returns Q w HcQ) as (Qi & HQi & _).
    cbv beta iota delta [bind ret andb k_in_range orb Z.eqb Pos.eqb].
    rewrite HQi.
    destruct (Point.eqb P Qi); reflexivity.
Qed.

Lemma add_identity_neutral_witness :
  let E := EC.mk 1 1 7 in
  let P := Point.mk 1 (Affine 0 1) 7 in
  let w := mkWorld 2 (fun _ => 0) 0 in
  Point.eqb P Point.identity = false /\
  Point.eqb Point.identity P = false /\ Point.constructible P /\
  EC.add E P Point.identity w = Returns ((true, VPoint P), w) /\
  observe (EC.add E Point.identity P w) = Returns (true, VPoint P).
Proof.
  intros E P w.
  assert (Hc : Point.constructible P) by (cbn; discriminate).
  split; [reflexivity|]. split; [reflexivity|]. split; [exact Hc|]. split.
  - exact (proj1 (add_identity_neutral E P Point.identity w eq_refl)
             eq_refl eq_refl).
  - exact (proj2 (add_identity_neutral E Point.identity P w eq_refl)
             eq_refl Hc).
Defined.

(* ===================================================================== *)
(** ** add is commutative *)
(* ===================================================================== *)

Lemma modInv_cases (n m : Z) (w : world) :
  0 < m ->
  (Z.gcd n m = 1 /\
   exists i, modInv n m w = Returns ((true, i), w) /\
             0 <= i < m /\ (m | n * i - 1)) \/
  (Z.gcd n m <> 1 /\ modInv n m w = Returns ((false, Z.gcd n m), w)).
Proof.
  intros Hm.
  destruct (modInv_run n m w Hm) as (u & v & Hbz & Hrun).
  destruct (Z.eqb_spec (Z.gcd n m) 1) as [Hg|Hg]; [left|right; auto].
  split; [exact Hg|]. exists (u mod m). split; [exact Hrun|].
  destruct (modInv_true n m (u mod m) w w Hm Hrun) as (_ & Hr & Hd). auto.
Qed.

(** The secant slope does not depend on the order of the two points. *)
Lemma modularSlope_sym (P Q : Point.t) (px py qx qy : Z) (w : world) :
  0 < Point.modulus P -> Point.modulus Q = Point.modulus P ->
  Point.xy P = Affine px py -> Point.xy Q = Affine qx qy ->
  modularSlope Q P w = modularSlope P Q w.
Proof.
  intros Hm HmQ HP HQ. unfold modularSlope. rewrite HP, HQ, HmQ.
  set (m := Point.modulus P) in *.
  assert (Hgcd : Z.gcd (px - qx) m = Z.gcd (qx - px) m).
  { replace (px - qx) with (- (qx - px)) by ring. apply Z.gcd_opp_l. }
  unfold bind.
  destruct (modInv_cases (qx - px) m w Hm)
    as [(Hg & i & -> & Hi & [k Hk])|(Hg & ->)];
    destruct (modInv_cases (px - qx) m w Hm)
      as [(Hg' & i' & -> & Hi' & [k' Hk'])|(Hg' & ->)];
    try (rewrite Hgcd in Hg'; contradiction).
  - unfold pymod, ret. destruct (Z.eqb_spec m 0) as [E0|_]; [lia|].
    do 3 f_equal. apply cong_iff_divide; [lia|].
    exists ((qy - py) * (i' * k + i * k')).
    replace ((py - qy) * i' - (qy - py) * i)
      with ((qy - py) * (i' * ((qx - px) * i - 1)
                         + i * ((px - qx) * i' - 1))) by ring.
    rewrite Hk, Hk'. ring.
  - rewrite Hgcd. reflexivity.
Qed.

(** X20. add is commutative on two distinct live points with int
    coordinates over the modulus of the curve: add(Q, P) returns exactly
    what add(P, Q) returns, the same point or the same obstruction. *)
Theorem add_commutative (E : EC.t) (P Q : Point.t) (px py qx qy : Z)
        (w : world) :
  0 < EC.modulus E ->
  Point.modulus P = EC.modulus E -> Point.modulus Q = EC.modulus E ->
  Point.xy P = Affine px py -> Point.xy Q = Affine qx qy ->
  Point.allocated w P -> Point.allocated w Q ->
  Point.eqb P Q = false ->
  EC.add E Q P w = EC.add E P Q w.
Proof.
  intros Hm HmP HmQ HP HQ HaP HaQ Hne.
  assert (Hne' : Point.eqb Q P = false)
    by (unfold Point.eqb in *; rewrite Nat.eqb_sym; exact Hne).
  assert (HidP : Point.ID P = false) by (unfold Point.ID; rewrite HP; reflexivity).
  assert (HidQ : Point.ID Q = false) by (unfold Point.ID; rewrite HQ; reflexivity).
  assert (HcP : Point.constructible P)
    by (unfold Point.constructible; rewrite HP; lia).
  assert (HcQ : Point.constructible Q)
    by (unfold Point.constructible; rewrite HQ; lia).
  destruct (inverse_returns P w HcP) as (Pi & HPi & HoP & _).
  destruct (inverse_returns Q w HcQ) as (Qi & HQi & HoQ & _).
  unfold EC.add. rewrite Hne, Hne'.
  unfold isCurveInd. rewrite HidP, HidQ.
  cbv beta iota delta [bind ret andb].
  rewrite HPi, HQi.
  rewrite (eqb_fresh w P Qi HaP HoQ), (eqb_fresh w Q Pi HaQ HoP).
  rewrite (modularSlope_sym P Q px py qx qy (bump w)
             ltac:(lia) ltac:(lia) HP HQ).
  destruct (modularSlope P Q (bump w)) as [[[e s] w1]|ex|] eqn:Hslope;
    try reflexivity.
  destruct e; [|reflexivity].
  destruct (modularSlope_facts P Q px py qx qy true s _ _
              ltac:(lia) HP HQ Hslope) as (_ & _ & Hs & _).
  rewrite HmP in Hs.
  rewrite (add_sumExists_run E Q P qx qy px py s w1 Hm HQ HP).
  rewrite (add_sumExists_run E P Q px py qx qy s w1 Hm HP HQ).
  replace (s ^ 2 - qx - px) with (s ^ 2 - px - qx) by ring.
  replace ((s * (qx - (s ^ 2 - px - qx)) - qy) mod EC.modulus E)
    with ((s * (px - (s ^ 2 - px - qx)) - py) mod EC.modulus E);
    [reflexivity|].
  apply cong_iff_divide; [lia|].
  replace (s * (px - (s ^ 2 - px - qx)) - py
           - (s * (qx - (s ^ 2 - px - qx)) - qy))
    with (- (s * (qx - px) - (qy - py))) by ring.
  apply Z.divide_opp_r. exact Hs.
Qed.

Lemma add_commutative_witness :
  let E := EC.mk 1 1 7 in
  let P := Point.mk 1 (Affine 0 1) 7 in
  let Q := Point.mk 2 (Affine 2 5) 7 in
  let w := mkWorld 3 (fun _ => 0) 0 in
  0 < EC.modulus E /\ Point.allocated w P /\ Point.allocated w Q /\
  Point.eqb P Q = false /\
  EC.add E Q P w = EC.add E P Q w.
Proof.
  intros E P Q w.
  assert (HaP : Point.allocated w P) by (unfold Point.allocated; cbn; lia).
  assert (HaQ : Point.allocated w Q) by (unfold Point.allocated; cbn; lia).
  split; [cbn; lia|]. split; [exact HaP|]. split; [exact HaQ|].
  split; [reflexivity|].
  exact (add_commutative E P Q 0 1 2 5 w ltac:(cbn; lia) eq_refl eq_refl
           eq_refl eq_refl HaP HaQ eq_refl).
Defined.

(* ===================================================================== *)
(** ** How much randomness the search consumes *)
(* ===================================================================== *)

Section Frame.

Context {A B : Type}.

Lemma dn_ret (a : A) : draws_nothing (ret a).
Proof. intros w a' w' [= _ <-]. split; reflexivity. Qed.

Lemma dn_raise (e : exn) : draws_nothing (@raise A e).
Proof. intros w a w'. discriminate. Qed.

Lemma dn_loop : draws_nothing (@loop_forever A).
Proof. intros w a w'. discriminate. Qed.

Lemma dn_bind (c : M A) (k : A -> M B) :
  draws_nothing c -> (forall a, draws_nothing (k a)) ->
  draws_nothing (bind c k).
Proof.
  intros Hc Hk w b w' H. bind_inv H.
  destruct (Hc _ _ _ Hrun) as [H1 H2]. destruct (Hk _ _ _ _ H) as [H3 H4].
  split; congruence.
Qed.

End Frame.

Lemma dn_alloc (c : coords) (m : Z) : draws_nothing (Point.alloc c m).
Proof. intros w a w' [= _ <-]. split; reflexivity. Qed.

Create HintDb frame.
#[local] Hint Resolve dn_alloc : frame.

Ltac frame :=
  repeat first
    [ apply dn_ret | apply dn_raise | apply dn_loop
    | solve [auto with frame]
    | apply dn_bind; [|intros]
    | match goal with
      | |- draws_nothing (if ?c then _ else _) => destruct c
      | |- draws_nothing (match ?x with _ => _ end) => destruct x
      end ].

Lemma dn_pymod (a m : Z) : draws_nothing (pymod a m).
Proof. unfold pymod. frame. Qed.
#[local] Hint Resolve dn_pymod : frame.

Lemma dn_to_float (z : Z) : draws_nothing (to_float z).
Proof. unfold to_float. frame. Qed.
#[local] Hint Resolve dn_to_float : frame.

Lemma dn_nonfinite_mod (m : Z) : draws_nothing (nonfinite_mod m).
Proof. unfold nonfinite_mod. frame. Qed.
#[local] Hint Resolve dn_nonfinite_mod : frame.

Lemma dn_modInv (n m : Z) : draws_nothing (modInv n m).
Proof. unfold modInv. frame. Qed.
#[local] Hint Resolve dn_modInv : frame.

Lemma dn_new (x y m : Z) : draws_nothing (Point.new x y m).
Proof. unfold Point.new. frame. Qed.
#[local] Hint Resolve dn_new : frame.

Lemma dn_new_nan (m : Z) : draws_nothing (Point.new_nan m).
Proof. unfold Point.new_nan. frame. Qed.
#[local] Hint Resolve dn_new_nan : frame.

Lemma dn_inverse (P : Point.t) : draws_nothing (Point.inverse P).
Proof. unfold Point.inverse, Point.new_ID. frame. Qed.
#[local] Hint Resolve dn_inverse : frame.

Lemma dn_EC_new (a b m : Z) : draws_nothing (EC.new a b m).
Proof. unfold EC.new. frame. Qed.
#[local] Hint Resolve dn_EC_new : frame.

Lemma dn_isSmooth (a b m : Z) : draws_nothing (isSmooth a b m).
Proof. unfold isSmooth. frame. Qed.
#[local] Hint Resolve dn_isSmooth : frame.

Lemma dn_modularSlope (P Q : Point.t) : draws_nothing (modularSlope P Q).
Proof. unfold modularSlope, float_operands. frame. Qed.
#[local] Hint Resolve dn_modularSlope : frame.

Lemma dn_isCurveInd (P Q : Point.t) (k : Z) : draws_nothing (isCurveInd P Q k).
Proof. unfold isCurveInd. frame. Qed.
#[local] Hint Resolve dn_isCurveInd : frame.

Lemma dn_resCurveInd (P Q : Point.t) (k : Z) :
  draws_nothing (resCurveInd P Q k).
Proof. unfold resCurveInd. frame. Qed.
#[local] Hint Resolve dn_resCurveInd : frame.

Lemma dn_tangent (E : EC.t) (P : Point.t) : draws_nothing (EC.tangent E P).
Proof. unfold EC.tangent. frame. Qed.
#[local] Hint Resolve dn_tangent : frame.

Lemma dn_add_sumExists (E : EC.t) (P Q : Point.t) (s : Z) :
  draws_nothing (EC.add_sumExists E P Q s).
Proof. unfold EC.add_sumExists. frame. Qed.
#[local] Hint Resolve dn_add_sumExists : frame.

Lemma dn_double (E : EC.t) (P : Point.t) : draws_nothing (EC.double E P).
Proof. unfold EC.double. frame. Qed.
#[local] Hint Resolve dn_double : frame.

Lemma dn_add (E : EC.t) (P Q : Point.t) : draws_nothing (EC.add E P Q).
Proof. unfold EC.add. frame. Qed.
#[local] Hint Resolve dn_add : frame.

Lemma dn_as_point (v : value) : draws_nothing (EC.as_point v).
Proof. unfold EC.as_point. frame. Qed.
#[local] Hint Resolve dn_as_point : frame.

Lemma dn_mult_loop (E : EC.t) (bits : list bool) :
  forall (e : bool) (res P : value),
    draws_nothing (EC.mult_loop E bits e res P).
Proof.
  induction bits as [|bit rest IH]; intros e res P; cbn [EC.mult_loop];
    frame; apply IH.
Qed.
#[local] Hint Resolve dn_mult_loop : frame.

(** The group law never touches the random source: a call of [mult] (and
    so of [add], [double] and the slopes it runs) leaves the source and the
    number of draws made as they were. *)
Lemma mult_draws_nothing (E : EC.t) (P : Point.t) (k : Z) (w w' : world)
        (r : bool * value) :
  EC.mult E P k w = Returns (r, w') ->
  rng w' = rng w /\ drawn w' = drawn w.
Proof.
  revert w r w'. change (draws_nothing (EC.mult E P k)).
  unfold EC.mult. frame.
Qed.

Lemma randint_draws (lo hi r : Z) (w w' : world) :
  randint lo hi w = Returns (r, w') ->
  rng w' = rng w /\ drawn w' = S (drawn w).
Proof.
  unfold randint. destruct (hi <? lo); [discriminate|].
  intros [= _ <-]. split; reflexivity.
Qed.

(** Each attempt of [generateCurvePoint] makes three draws. *)
Lemma generate_loop_draws (m : Z) (n : nat) :
  forall (w w' : world) (r : option (Point.t * EC.t)),
    generate_loop n m w = Returns (r, w') ->
    rng w' = rng w /\ (drawn w <= drawn w' <= drawn w + 3 * n)%nat.
Proof.
  induction n as [|n IH]; intros w w' r.
  - cbn. intros [= _ <-]. split; [reflexivity | lia].
  - cbn [generate_loop]. intros H.
    bind_inv H. apply randint_draws in Hrun. destruct Hrun as [R0 D0].
    bind_inv H. apply randint_draws in Hrun. destruct Hrun as [R1 D1].
    bind_inv H. apply randint_draws in Hrun. destruct Hrun as [R2 D2].
    bind_inv H. apply dn_pymod in Hrun. destruct Hrun as [R3 D3].
    bind_inv H. apply dn_isSmooth in Hrun. destruct Hrun as [R4 D4].
    destruct a3.
    + bind_inv H. apply dn_new in Hrun. destruct Hrun as [R5 D5].
      bind_inv H. apply dn_EC_new in Hrun. destruct Hrun as [R6 D6].
      injection H as _ <-. split; [congruence | lia].
    + apply IH in H. destruct H as [R5 D5]. split; [congruence | lia].
Qed.

Lemma search_loop_draws (N num effortGen : Z) (n : nat) :
  forall (searching : bool) (res : option value) (w w' : world)
         (r : bool * option value),
    search_loop n N num effortGen searching res w = Returns (r, w') ->
    rng w' = rng w /\
    (drawn w <= drawn w' <= drawn w + 3 * Z.to_nat effortGen * n)%nat.
Proof.
  induction n as [|n IH]; intros searching res w w' r.
  - cbn. intros [= _ <-]. split; [reflexivity | lia].
  - cbn [search_loop]. destruct searching; cbn [negb].
    2:{ intros [= _ <-]. split; [reflexivity | lia]. }
    intros H. bind_inv H. destruct a as [P curve].
    unfold generateCurvePoint in Hrun. bind_inv Hrun.
    apply generate_loop_draws in Hrun0. destruct Hrun0 as [R0 D0].
    destruct a as [pc|]; [|discriminate]. injection Hrun as _ <-.
    bind_inv H. destruct a as [s1 r1].
    apply mult_draws_nothing in Hrun. destruct Hrun as [R1 D1].
    apply IH in H. destruct H as [R2 D2].
    split; [congruence | nia].
Qed.

(** X21. The two budgets bound the randomness consumed: a call of
    lenstraFactorial that returns has made at most
    3 * effortGen * effortObs draws (three per sampling attempt, none in
    the group law), and has left the random source itself untouched. *)
Theorem lenstraFactorial_draw_budget (N bound effortObs effortGen : Z)
        (w w' : world) (v : value) :
  lenstraFactorial N bound effortObs effortGen w = Returns (v, w') ->
  rng w' = rng w /\
  (drawn w <= drawn w'
   <= drawn w + 3 * Z.to_nat effortGen * Z.to_nat effortObs)%nat.
Proof.
  unfold lenstraFactorial. intros H.
  bind_inv H. unfold factorial in Hrun.
  destruct (bound <? 0); [discriminate|]. injection Hrun as _ <-.
  bind_inv H. apply search_loop_draws in Hrun. destruct Hrun as [R D].
  destruct a0 as [s r]. destruct s.
  - injection H as _ <-. split; assumption.
  - destruct r as [r|]; [|discriminate].
    injection H as _ <-. split; assumption.
Qed.

Lemma lenstraFactorial_draw_budget_witness :
  let w := start [2; 1; 2] in
  let w' := mkWorld 11 (fun i => nth i [2; 1; 2] 0) 3 in
  lenstraFactorial 35 4 1 100 w = Returns (VInt 7, w') /\
  (drawn w <= drawn w' <= drawn w + 3 * Z.to_nat 100 * Z.to_nat 1)%nat.
Proof.
  intros w w'.
  assert (Hrun : lenstraFactorial 35 4 1 100 w = Returns (VInt 7, w'))
    by (vm_compute; reflexivity).
  split; [exact Hrun|].
  exact (proj2 (lenstraFactorial_draw_budget 35 4 1 100 w w' (VInt 7) Hrun)).
Defined.
